(** * setlist_to_navidrome: a shallow embedding of the setlist-to-playlist script

    The script fetches a setlist document from setlist.fm, flattens it into
    song titles, searches every title in a Navidrome (Subsonic API) catalog,
    keeps the first hit of every search and publishes the ids as a playlist.

    The embedding follows [setlist_to_navidrome.py] function by function.
    Python values coming out of [r.json()] are modelled by [json]; element
    trees coming out of [xml.etree.ElementTree] by [element]; dictionaries of
    request parameters by [gmap string string]; exceptions by [exn]; the
    process state that the script threads implicitly (the position in the
    random stream, the number of HTTP calls made, the two output streams) by
    [world]. *)

From Stdlib Require Import ZArith Ascii String List.
From stdpp Require Import gmap strings list fin_maps pretty.

Local Open Scope string_scope.
Local Open Scope Z_scope.
Local Open Scope list_scope.

Set Warnings "-register-all".

(** ** Python values produced by [json.loads]

    An object is the list of its members in insertion order. The script
    looks at a number only to test whether it is zero, so numbers are
    integers here. *)

Inductive json : Type :=
| JNull
| JBool (b : bool)
| JNum (z : Z)
| JStr (s : string)
| JArr (items : list json)
| JObj (fields : list (string * json)).

(** ** Exceptions

    [SystemExit] is the only one that is not an instance of [Exception]. *)

Inductive exn : Type :=
| AttributeError
| TypeError
| RuntimeError (msg : string)
| JSONDecodeError
| ParseError
| RequestException (msg : string)
| HTTPError (status : Z) (body : string)
| UnicodeEncodeError
| SystemExit (code : Z).

Definition is_Exception (e : exn) : bool :=
  match e with
  | SystemExit _ => false
  | _ => true
  end.

Inductive result (A : Type) : Type :=
| Ok (a : A)
| Raise (e : exn).

Arguments Ok {A} a.
Arguments Raise {A} e.

Module Res.
Definition bind {A B} (r : result A) (k : A -> result B) : result B :=
  match r with
  | Ok a => k a
  | Raise e => Raise e
  end.

(** A [for] statement whose body updates an accumulator and may raise. *)
Fixpoint for_each {A S} (body : S -> A -> result S) (l : list A) (acc : S)
  : result S :=
  match l with
  | [] => Ok acc
  | x :: l' => bind (body acc x) (for_each body l')
  end.
End Res.

Notation "'let?' x ':=' c1 'in' c2" := (Res.bind c1 (fun x => c2))
  (at level 10, x name, c1 at level 200, c2 at level 200).

(** ** The Python operations the script applies to parsed JSON *)

(** Truth value of a Python object ([if x], [x or y], [not x]). *)
Definition truthy (j : json) : bool :=
  match j with
  | JNull => false
  | JBool b => b
  | JNum z => negb (z =? 0)
  | JStr s => negb (bool_decide (s = ""))
  | JArr items => match items with [] => false | _ => true end
  | JObj fields => match fields with [] => false | _ => true end
  end.

(** [x or y] *)
Definition py_or (x y : json) : json := if truthy x then x else y.

Fixpoint assoc (k : string) (fields : list (string * json)) : option json :=
  match fields with
  | [] => None
  | (k', v) :: rest => if bool_decide (k' = k) then Some v else assoc k rest
  end.

(** [x.get(k, d)]: only dictionaries have a [get] method. *)
Definition py_get (x : json) (k : string) (d : json) : result json :=
  match x with
  | JObj fields => Ok (default d (assoc k fields))
  | _ => Raise AttributeError
  end.

Fixpoint chars (s : string) : list json :=
  match s with
  | EmptyString => []
  | String c s' => JStr (String c EmptyString) :: chars s'
  end.

(** The items a [for] statement visits: the elements of a list, the
    characters of a string, the keys of a dictionary; anything else is not
    iterable. *)
Definition py_iter (x : json) : result (list json) :=
  match x with
  | JArr items => Ok items
  | JStr s => Ok (chars s)
  | JObj fields => Ok (JStr <$> fields.*1)
  | _ => Raise TypeError
  end.

(** ** setlist.fm *)

Definition parse_songs_from_setlist (json_obj : json) : result (list json) :=
  let songs : list json := [] in
  let? sets := py_get json_obj "sets" (JObj []) in
  let? set_ := py_get sets "set" (JArr []) in
  let? outer := py_iter (py_or set_ (JArr [])) in
  Res.for_each (fun songs s =>
    let? song_ := py_get s "song" (JArr []) in
    let? inner := py_iter (py_or song_ (JArr [])) in
    Res.for_each (fun songs song =>
      let? title := py_get song "name" JNull in
      if truthy title then Ok (songs ++ [title]) else Ok songs) inner songs)
    outer songs.

(** [l[:n]] *)
Definition py_slice_to {A} (l : list A) (n : Z) : list A :=
  if 0 <=? n then take (Z.to_nat n) l
  else take (Z.to_nat (Z.of_nat (length l) + n)) l.

(** ** The shape of a setlist.fm document, and the titles it lists

    These two definitions state the specification side of the title
    extraction: a setlist document is an object whose optional ["sets"] member
    is an object, whose optional ["set"] member is null or an array of set
    objects, each with an optional ["song"] member that is null or an array
    of song objects, each with an optional textual ["name"]. *)

Definition song_shaped (song : json) : bool :=
  match song with
  | JObj fields =>
      match assoc "name" fields with
      | None | Some (JStr _) => true
      | _ => false
      end
  | _ => false
  end.

Definition set_shaped (s : json) : bool :=
  match s with
  | JObj fields =>
      match assoc "song" fields with
      | None | Some JNull => true
      | Some (JArr songs) => forallb song_shaped songs
      | _ => false
      end
  | _ => false
  end.

Definition setlist_document (doc : json) : bool :=
  match doc with
  | JObj fields =>
      match assoc "sets" fields with
      | None => true
      | Some (JObj sets) =>
          match assoc "set" sets with
          | None | Some JNull => true
          | Some (JArr ss) => forallb set_shaped ss
          | _ => false
          end
      | _ => false
      end
  | _ => false
  end.

Definition member (k : string) (x : json) : option json :=
  match x with
  | JObj fields => assoc k fields
  | _ => None
  end.

Definition array_items (o : option json) : list json :=
  match o with
  | Some (JArr items) => items
  | _ => []
  end.

(** The ["name"] of a song entry, when present and non-empty. *)
Definition song_name (song : json) : list string :=
  match member "name" song with
  | Some (JStr s) => if bool_decide (s = "") then [] else [s]
  | _ => []
  end.

Definition set_titles (s : json) : list string :=
  flat_map song_name (array_items (member "song" s)).

Definition document_titles (doc : json) : list string :=
  flat_map set_titles
    (array_items (mbind (member "set") (member "sets" doc))).

(** ** Element trees produced by [xml.etree.ElementTree]

    A qualified tag is the string [{uri}local], as ElementTree writes it. *)

Inductive element : Type :=
| Element (tag : string) (attrib : gmap string string)
    (children : list element).

Definition tag_of (e : element) : string :=
  match e with Element t _ _ => t end.

Definition attrib_of (e : element) : gmap string string :=
  match e with Element _ a _ => a end.

(** [e.iter()]: the element and all its descendants in document order. *)
Fixpoint iter (e : element) : list element :=
  match e with
  | Element _ _ children =>
      e :: (fix walk (l : list element) : list element :=
              match l with
              | [] => []
              | c :: l' => iter c ++ walk l'
              end) children
  end.

Definition descendants (e : element) : list element :=
  match e with
  | Element _ _ children => flat_map iter children
  end.

(** [root.findall('.//' + tag)]: the proper descendants carrying that tag,
    in document order. *)
Definition findall_descendants (tag : string) (root : element)
  : list element :=
  filter (fun e => tag_of e = tag) (descendants root).

(** A catalog track candidate: the identifier and the display name, which
    is [None] when the entry has neither a title nor a name. *)
Definition candidate : Type := string * option string.

Definition truthy_attr (o : option string) : bool :=
  match o with
  | Some s => negb (bool_decide (s = ""))
  | None => false
  end.

(** The loop of [extract_song_ids_from_search_xml], after parsing. *)
Definition song_candidates (root : element) : list candidate :=
  foldl (fun ids song =>
           let sid := attrib_of song !! "id" in
           let sname :=
             if truthy_attr (attrib_of song !! "title")
             then attrib_of song !! "title"
             else attrib_of song !! "name" in
           match sid with
           | Some i => if truthy_attr sid then ids ++ [(i, sname)] else ids
           | None => ids
           end)
        []
        (findall_descendants "{http://subsonic.org/restapi}song" root
           ++ findall_descendants "song" root).

(** ** What the script gets from its interpreter and its libraries *)

Definition alphabet : list ascii :=
  list_ascii_of_string "abcdefghijklmnopqrstuvwxyz0123456789".

(** One draw of [floor(random() * 36)]: an index into [alphabet]. The
    floating point product is not modelled, only its range. *)
Record draw : Type := Draw {
  draw_index : nat;
  draw_below : (draw_index <? 36)%nat = true
}.

Record response : Type := Response {
  status_code : Z;
  text : string
}.

(** What is handed to [requests]. The values of [params] are Python objects:
    text everywhere in this script, except that the query of a search is
    the title object itself when there is no artist hint. *)
Record request : Type := Request {
  req_method : string;
  req_url : string;
  req_headers : gmap string string;
  req_params : gmap string json;
  req_timeout : Z
}.

(** A call either gets an HTTP response or fails in transport (connection
    refused, timeout, ...). *)
Inductive reply : Type :=
| Replied (r : response)
| Failed (msg : string).

(** What the script prints; the wording of the lines is not modelled. *)
Inductive message : Type :=
| MsgFetching (setlist : string)
| MsgFound (n : nat)
| MsgMatched (title : json) (name : option string) (chosen_id : string)
| MsgNoMatch (title : json)
| MsgSearchError (title : json) (e : exn)
| MsgCreating (name : string) (n : nat)
| MsgCreated
| MsgServerResponse (body : string)
| MsgNavConfigMissing
| MsgApiKeyMissing
| MsgNoSetlistId
| MsgNoSongs
| MsgNothingMatched.

(** The libraries and the outside world. [tape i] is the [i]-th draw of the
    process's random generator; [net i rq] is what the [i]-th HTTP call of
    the run gets when it sends [rq]; [stdout_accepts m] tells whether the
    encoding of standard output can encode the line [m] ([print] raises
    [UnicodeEncodeError] when it cannot). *)
Record runtime : Type := Runtime {
  tape : nat -> draw;
  net : nat -> request -> reply;
  hashlib_md5_hexdigest : string -> string;
  json_loads : string -> option json;
  ET_fromstring : string -> option element;
  urljoin : string -> string -> string;
  py_str : json -> string;
  stdout_accepts : message -> bool
}.

(** The module-level configuration read with [os.getenv]. *)
Record environ : Type := Environ {
  SETLISTFM_API_KEY : option string;
  NAV_BASE_URL : option string;
  NAV_USERNAME : option string;
  NAV_PASSWORD : option string;
  CLIENT_ID : string
}.

(** The namespace built by [argparse]. *)
Record arguments : Type := Arguments_ {
  setlist_id : option string;
  setlist_url : option string;
  playlist_name : string;
  artist : option string;
  max_songs : Z
}.

Definition default_max_songs : Z := 200.

Record world : Type := World {
  rng_pos : nat;
  net_calls : nat;
  stdout : list message;
  stderr : list message
}.

(** ** Computations: state passing with exceptions *)

Definition M (A : Type) : Type := world -> result A * world.

Definition ret {A} (a : A) : M A := fun w => (Ok a, w).

Definition raise {A} (e : exn) : M A := fun w => (Raise e, w).

Definition bind {A B} (m : M A) (k : A -> M B) : M B :=
  fun w =>
    match m w with
    | (Ok a, w') => k a w'
    | (Raise e, w') => (Raise e, w')
    end.

Definition lift {A} (r : result A) : M A := fun w => (r, w).

(** [try: m except Exception as e: h e] *)
Definition try_except {A} (m : M A) (h : exn -> M A) : M A :=
  fun w =>
    match m w with
    | (Ok a, w') => (Ok a, w')
    | (Raise e, w') => if is_Exception e then h e w' else (Raise e, w')
    end.

Notation "'let*' x ':=' c1 'in' c2" := (bind c1 (fun x => c2))
  (at level 10, x name, c1 at level 200, c2 at level 200).
Notation "'do' c1 'in' c2" := (bind c1 (fun _ => c2))
  (at level 10, c1 at level 200, c2 at level 200).

(** The first statements of a [try] block, up to the point where the block
    starts to change local variables: an [Exception] they raise is handed
    over as a value, for the handler. *)
Definition attempt {A} (m : M A) : M (result A) :=
  fun w =>
    match m w with
    | (Ok a, w') => (Ok (Ok a), w')
    | (Raise e, w') =>
        if is_Exception e then (Ok (Raise e), w') else (Raise e, w')
    end.

(** [print(..., file=sys.stderr)]: standard error replaces what it cannot
    encode, so this never raises. *)
Definition eprint (m : message) : M unit :=
  fun w => (Ok tt, World (rng_pos w) (net_calls w) (stdout w) (stderr w ++ [m])).

Definition sys_exit {A} (code : Z) : M A := raise (SystemExit code).

(** The exit status the interpreter reports for a run of [main]. *)
Definition exit_status {A} (r : result A) : Z :=
  match r with
  | Ok _ => 0
  | Raise (SystemExit code) => code
  | Raise _ => 1
  end.

(** ** String helpers of [main] *)

(** [s.rstrip("/")] *)
Fixpoint rstrip_slash (s : string) : string :=
  match s with
  | EmptyString => EmptyString
  | String c s' =>
      match rstrip_slash s' with
      | EmptyString =>
          if bool_decide (c = "/"%char) then EmptyString
          else String c EmptyString
      | r => String c r
      end
  end.

(** [s.split("/")[-1]]: what follows the last slash; [cur] is the segment
    read so far. *)
Fixpoint last_segment_from (cur s : string) : string :=
  match s with
  | EmptyString => cur
  | String c s' =>
      if bool_decide (c = "/"%char) then last_segment_from EmptyString s'
      else last_segment_from (cur +:+ String c EmptyString) s'
  end.

Definition last_segment (s : string) : string :=
  last_segment_from EmptyString s.

(** [not v] for a value that is [None] or a string. *)
Definition falsy (v : option string) : bool :=
  match v with
  | None => true
  | Some s => bool_decide (s = "")
  end.

(** The string behind a configuration value once it has passed [falsy]. *)
Definition val (v : option string) : string := default "" v.

(** The setlist id after lines 132-135 of the script. *)
Definition resolve_setlist_id (args : arguments) : option string :=
  if falsy (setlist_id args) && negb (falsy (setlist_url args))
  then Some (last_segment (rstrip_slash (val (setlist_url args))))
  else setlist_id args.

Section Script.
Variable rt : runtime.
Variable env : environ.

(** *** Utilities *)

(** [print(...)] on standard output. *)
Definition print (m : message) : M unit :=
  fun w =>
    if stdout_accepts rt m
    then (Ok tt,
          World (rng_pos w) (net_calls w) (stdout w ++ [m]) (stderr w))
    else (Raise UnicodeEncodeError, w).

Definition next_draw : M draw :=
  fun w =>
    (Ok (tape rt (rng_pos w)),
     World (S (rng_pos w)) (net_calls w) (stdout w) (stderr w)).

(** [random.choices(string.ascii_lowercase + string.digits, k=k)] *)
Fixpoint random_choices (k : nat) : M (list ascii) :=
  match k with
  | O => ret []
  | S k' =>
      let* d := next_draw in
      let* rest := random_choices k' in
      ret (nth (draw_index d) alphabet "a"%char :: rest)
  end.

Definition random_salt (n : nat) : M string :=
  let* cs := random_choices n in
  ret (string_of_list_ascii cs).

Definition md5hex (s : string) : string := hashlib_md5_hexdigest rt s.

(** *** HTTP, as [requests] does it *)

Definition send (rq : request) : M response :=
  fun w =>
    let w' := World (rng_pos w) (S (net_calls w)) (stdout w) (stderr w) in
    match net rt (net_calls w) rq with
    | Replied r => (Ok r, w')
    | Failed msg => (Raise (RequestException msg), w')
    end.

(** [r.raise_for_status()]: [requests] raises for client errors
    ([400 <= status < 500]) and server errors ([500 <= status < 600]) and
    for no other status. *)
Definition raise_for_status (r : response) : M unit :=
  if (400 <=? status_code r) && (status_code r <? 600)
  then raise (HTTPError (status_code r) (text r))
  else ret tt.

(** [r.json()] *)
Definition response_json (r : response) : M json :=
  match json_loads rt (text r) with
  | Some j => ret j
  | None => raise JSONDecodeError
  end.

(** *** setlist.fm *)

Definition fetch_setlist_by_id (setlist_id : string) : M json :=
  if falsy (SETLISTFM_API_KEY env)
  then raise (RuntimeError "SETLISTFM_API_KEY saknas i miljön.")
  else
    let url := "https://api.setlist.fm/1.0/setlist/" +:+ setlist_id in
    let headers : gmap string string :=
      <["x-api-key" := val (SETLISTFM_API_KEY env)]>
        (<["Accept" := "application/json"]> ∅) in
    let* r := send (Request "GET" url headers ∅ 20) in
    do raise_for_status r in
    response_json r.

(** *** Navidrome / Subsonic helpers *)

Definition subsonic_params (username password : string)
  : M (gmap string string) :=
  let* s := random_salt 8 in
  let t := md5hex (password +:+ s) in
  ret (<["u" := username]> (<["t" := t]> (<["s" := s]>
        (<["v" := "1.16.1"]> (<["c" := CLIENT_ID env]> ∅))))).

Definition subsonic_call (base_url endpoint : string)
    (params : option (gmap string json)) : M response :=
  let params := default ∅ params in
  let url := urljoin rt base_url ("/rest/" +:+ endpoint +:+ ".view") in
  let* r := send (Request "GET" url ∅ params 20) in
  do raise_for_status r in
  ret r.

(** The text of a value inside an f-string. *)
Definition to_text (j : json) : string :=
  match j with
  | JStr s => s
  | _ => py_str rt j
  end.

Definition search_song (base_url username password : string)
    (artist title : json) (max_results : nat) : M string :=
  let* params := subsonic_params username password in
  let q :=
    if truthy artist then JStr (to_text artist +:+ " " +:+ to_text title)
    else title in
  let params : gmap string json :=
    <["query" := q]> (<["songCount" := JStr (pretty max_results)]>
      (<["artistCount" := JStr "0"]> (<["albumCount" := JStr "0"]>
         (JStr <$> params)))) in
  let* r := subsonic_call base_url "search3" (Some params) in
  ret (text r).

Definition extract_song_ids_from_search_xml (xml_text : string)
    (title : json) : result (list candidate) :=
  match ET_fromstring rt xml_text with
  | Some root => Ok (song_candidates root)
  | None => Raise ParseError
  end.

(** [for i, sid in enumerate(song_ids): params[f"songId[{i}]"] = sid] *)
Fixpoint add_song_ids (i : nat) (song_ids : list string)
    (params : gmap string string) : gmap string string :=
  match song_ids with
  | [] => params
  | sid :: rest =>
      add_song_ids (S i) rest (<["songId[" +:+ pretty i +:+ "]" := sid]> params)
  end.

Definition create_playlist (base_url username password playlist_name : string)
    (song_ids : list string) : M response :=
  let* params := subsonic_params username password in
  let params := <["name" := playlist_name]> params in
  let params := add_song_ids 0 song_ids params in
  let* r := send (Request "POST"
                    (urljoin rt base_url "/rest/createPlaylist.view")
                    ∅ (JStr <$> params) 30) in
  do raise_for_status r in
  ret r.

(** *** Main flow *)

(** [args.artist or js.get("artist", {}).get("name")] *)
Definition artist_hint (args : arguments) (js : json) : result json :=
  if falsy (artist args)
  then
    let? a := py_get js "artist" (JObj []) in
    py_get a "name" JNull
  else Ok (JStr (val (artist args))).

(** The body of the [try] statement for one title: the candidates the
    catalog returns for it. *)
Definition lookup_candidates (args : arguments) (js : json) (title : json)
  : M (list candidate) :=
  let* hint := lift (artist_hint args js) in
  let* xml := search_song (val (NAV_BASE_URL env)) (val (NAV_USERNAME env))
                (val (NAV_PASSWORD env)) hint title 5 in
  lift (extract_song_ids_from_search_xml xml title).

(** The [except Exception as e] clause of the matching loop; [matched_ids]
    is the list as the [try] block left it. *)
Definition search_failed (title : json) (matched_ids : list string) (e : exn)
  : M (list string) :=
  do print (MsgSearchError title e) in
  ret matched_ids.

(** One iteration of the matching loop. The [try] block is taken in two
    parts: the lookup, during which [matched_ids] is untouched, and what
    follows it. When the [print] after [matched_ids.append(chosen_id)]
    raises, the handler runs with the identifier already in the list. *)
Definition match_title (args : arguments) (js : json)
    (matched_ids : list string) (title : json) : M (list string) :=
  let* found := attempt (lookup_candidates args js title) in
  match found with
  | Raise e => search_failed title matched_ids e
  | Ok ((chosen_id, name) :: _) =>
      let matched_ids := matched_ids ++ [chosen_id] in
      try_except
        (do print (MsgMatched title name chosen_id) in
         ret matched_ids)
        (search_failed title matched_ids)
  | Ok [] =>
      try_except
        (do print (MsgNoMatch title) in
         ret matched_ids)
        (search_failed title matched_ids)
  end.

(** [for title in songs: ...] *)
Fixpoint match_titles (args : arguments) (js : json) (songs : list json)
    (matched_ids : list string) : M (list string) :=
  match songs with
  | [] => ret matched_ids
  | title :: rest =>
      let* matched_ids := match_title args js matched_ids title in
      match_titles args js rest matched_ids
  end.

(** Lines 125-170 of [main]: everything up to the decision to publish;
    the result is [matched_ids]. *)
Definition collect_matched_ids (args : arguments) : M (list string) :=
  if falsy (NAV_BASE_URL env) || falsy (NAV_USERNAME env)
     || falsy (NAV_PASSWORD env)
  then do eprint MsgNavConfigMissing in sys_exit 2
  else if falsy (SETLISTFM_API_KEY env)
  then do eprint MsgApiKeyMissing in sys_exit 2
  else if falsy (resolve_setlist_id args)
  then do eprint MsgNoSetlistId in sys_exit 2
  else
    let setlist_id := val (resolve_setlist_id args) in
    do print (MsgFetching setlist_id) in
    let* js := fetch_setlist_by_id setlist_id in
    let* songs := lift (parse_songs_from_setlist js) in
    match songs with
    | [] => do eprint MsgNoSongs in sys_exit 1
    | _ =>
        let songs := py_slice_to songs (max_songs args) in
        do print (MsgFound (length songs)) in
        let* matched_ids := match_titles args js songs [] in
        match matched_ids with
        | [] => do eprint MsgNothingMatched in sys_exit 1
        | _ => ret matched_ids
        end
    end.

(** Lines 172-175 of [main]. *)
Definition publish (args : arguments) (matched_ids : list string) : M unit :=
  do print (MsgCreating (playlist_name args) (length matched_ids)) in
  let* r := create_playlist (val (NAV_BASE_URL env))
              (val (NAV_USERNAME env)) (val (NAV_PASSWORD env))
              (playlist_name args) matched_ids in
  do print MsgCreated in
  print (MsgServerResponse (text r)).

Definition main (args : arguments) : M unit :=
  let* matched_ids := collect_matched_ids args in
  publish args matched_ids.

(** *** Specification-side views of a run *)

(** The salt spelled by the [n] draws that start at position [pos]. *)
Definition salt_at (pos n : nat) : string :=
  string_of_list_ascii
    ((fun i => nth (draw_index (tape rt i)) alphabet "a"%char)
       <$> seq pos n).

(** The worlds in which the successive iterations of the matching loop
    start. *)
Fixpoint loop_worlds (args : arguments) (js : json) (songs : list json)
    (w : world) : list world :=
  match songs with
  | [] => []
  | title :: rest =>
      w :: loop_worlds args js rest (match_title args js [] title w).2
  end.

(** What the catalog lookup of each title returned, in loop order. *)
Definition title_outcomes (args : arguments) (js : json)
    (songs : list json) (w : world) : list (result (list candidate)) :=
  zip_with (fun title w => (lookup_candidates args js title w).1)
    songs (loop_worlds args js songs w).

End Script.

(** The identifier of the first candidate, if the lookup returned one. *)
Definition first_id (o : result (list candidate)) : option string :=
  match o with
  | Ok ((chosen_id, _) :: _) => Some chosen_id
  | _ => None
  end.

(** What one entry contributes to the candidates. *)
Definition candidate_of (song : element) : option candidate :=
  match attrib_of song !! "id" with
  | Some i =>
      if bool_decide (i = "") then None
      else Some (i, if truthy_attr (attrib_of song !! "title")
                    then attrib_of song !! "title"
                    else attrib_of song !! "name")
  | None => None
  end.


Definition advance_rng (k : nat) (w : world) : world :=
  World (rng_pos w + k) (net_calls w) (stdout w) (stderr w).

(** The world once the line [m] has been written on standard output. *)
Definition logged (m : message) (w : world) : world :=
  World (rng_pos w) (net_calls w) (stdout w ++ [m]) (stderr w).

(** The test that makes [main] leave through [sys.exit(2)]: a required
    value or the setlist id is [None] or the empty string. *)
Definition configuration_missing (env : environ) (args : arguments) : bool :=
  falsy (NAV_BASE_URL env) || falsy (NAV_USERNAME env)
  || falsy (NAV_PASSWORD env) || falsy (SETLISTFM_API_KEY env)
  || falsy (resolve_setlist_id args).

(** ** Concrete runs *)

Definition sample_document : json :=
  JObj [("artist", JObj [("name", JStr "Band")]);
        ("sets", JObj [("set", JArr [
           JObj [("song", JArr [JObj [("name", JStr "A")];
                                JObj [("name", JStr "")];
                                JObj [("cover", JObj [])];
                                JObj [("name", JStr "B")]])];
           JObj [("encore", JNum 1)];
           JObj [("song", JNull)];
           JObj [("song", JArr [JObj [("name", JStr "Encore")]])]])])].

Definition subsonic_ns (local : string) : string :=
  "{http://subsonic.org/restapi}" +:+ local.

Definition sample_search_result : element :=
  Element (subsonic_ns "subsonic-response") {[ "status" := "ok" ]}
    [Element (subsonic_ns "searchResult3") ∅
       [Element (subsonic_ns "song")
          (<["id" := "id1"]> {[ "title" := "Encore" ]}) [];
        Element (subsonic_ns "song")
          (<["id" := "id2"]> {[ "title" := "Encore (Live)" ]}) []]].

(** An entry without any title or name, followed by a qualified one. *)
Definition mixed_search_result : element :=
  Element "subsonic-response" ∅
    [Element "song" {[ "id" := "1" ]} [];
     Element (subsonic_ns "song") (<["id" := "2"]> {[ "title" := "T" ]}) []].

(** A world in which every draw is index 0, the setlist service answers
    with [fetch_status] and a body that parses to [sample_document], every
    search returns a body that parses to [tree], the playlist call is
    answered with [create_status], and standard output accepts every line.
    The digest is a stand-in. *)
Definition make_runtime (fetch_status create_status : Z) (tree : element)
  : runtime :=
  {| tape := fun _ => Draw 0 eq_refl;
     net := fun _ rq =>
       if bool_decide (req_method rq = "POST")
       then Replied (Response create_status "")
       else if String.prefix "https://api.setlist.fm/" (req_url rq)
       then Replied (Response fetch_status "setlist")
       else Replied (Response 200 "search");
     hashlib_md5_hexdigest := fun s => "md5:" +:+ s;
     json_loads := fun _ => Some sample_document;
     ET_fromstring := fun _ => Some tree;
     urljoin := fun base path => base +:+ path;
     py_str := fun _ => "";
     stdout_accepts := fun _ => true |}.

Definition sample_runtime (create_status : Z) : runtime :=
  make_runtime 200 create_status sample_search_result.

Definition failing_fetch_runtime (fetch_status : Z) : runtime :=
  make_runtime fetch_status 200 sample_search_result.

Definition mixed_runtime : runtime :=
  make_runtime 200 200 mixed_search_result.

(** A title that a Latin-1 standard output cannot encode, a setlist that
    starts with it, and a world in which the setlist service returns that
    setlist, standard output refuses every line showing that title and no
    search response parses. *)
Definition tokyo : json := JStr "東京".

Definition shows_tokyo (m : message) : bool :=
  match m with
  | MsgMatched (JStr s) _ _ | MsgNoMatch (JStr s) | MsgSearchError (JStr s) _ =>
      bool_decide (s = "東京")
  | _ => false
  end.

Definition tokyo_document : json :=
  JObj [("artist", JObj [("name", JStr "Band")]);
        ("sets", JObj [("set", JArr [
           JObj [("song", JArr [JObj [("name", tokyo)];
                                JObj [("name", JStr "B")]])]])])].

Definition latin1_runtime : runtime :=
  {| tape := fun _ => Draw 0 eq_refl;
     net := fun _ _ => Replied (Response 200 "search");
     hashlib_md5_hexdigest := fun s => "md5:" +:+ s;
     json_loads := fun _ => Some tokyo_document;
     ET_fromstring := fun _ => None;
     urljoin := fun base path => base +:+ path;
     py_str := fun _ => "";
     stdout_accepts := fun m => negb (shows_tokyo m) |}.

Definition sample_environ : environ :=
  {| SETLISTFM_API_KEY := Some "key";
     NAV_BASE_URL := Some "http://navidrome.local:4533";
     NAV_USERNAME := Some "user";
     NAV_PASSWORD := Some "secret";
     CLIENT_ID := "setlist-sync" |}.

(** Every value is set, the account secret to the empty string. *)
Definition empty_password_environ : environ :=
  {| SETLISTFM_API_KEY := Some "key";
     NAV_BASE_URL := Some "http://navidrome.local:4533";
     NAV_USERNAME := Some "user";
     NAV_PASSWORD := Some "";
     CLIENT_ID := "setlist-sync" |}.

Definition sample_arguments (cap : Z) : arguments :=
  {| setlist_id := Some "7bd6f1ac";
     setlist_url := None;
     playlist_name := "Band - Tour";
     artist := None;
     max_songs := cap |}.

Definition initial_world : world := World 0 0 [] [].

(** Whether a string contains a slash, and the string of [k] slashes. *)
Fixpoint has_slash (s : string) : bool :=
  match s with
  | EmptyString => false
  | String c s' => bool_decide (c = "/"%char) || has_slash s'
  end.

Fixpoint slashes (k : nat) : string :=
  match k with
  | O => EmptyString
  | S k' => String "/" (slashes k')
  end.

(** Reading one parameter out of a dictionary built by successive
    assignments. *)
Ltac lookup_param :=
  repeat (rewrite lookup_insert_ne by done); rewrite lookup_insert_eq.

(** * Properties *)

(** * Title extraction *)

Lemma py_iter_or_array (items : list json) :
  py_iter (py_or (JArr items) (JArr [])) = Ok items.
Proof. by destruct items. Qed.

Lemma inner_loop_names (songs : list json) (acc : list json) :
  forallb song_shaped songs = true ->
  Res.for_each (fun songs song =>
      let? title := py_get song "name" JNull in
      if truthy title then Ok (songs ++ [title]) else Ok songs) songs acc
  = Ok (acc ++ (JStr <$> flat_map song_name songs)).
Proof.
  revert acc. induction songs as [|song songs IH]; intros acc Hs; simpl.
  - by rewrite app_nil_r.
  - simpl in Hs. apply andb_prop in Hs as [Hsong Hrest].
    destruct song as [| | | |?|fields]; try discriminate Hsong.
    unfold song_name, song_shaped in *. simpl in *.
    destruct (assoc "name" fields) as [[| | |s| |]|] eqn:E;
      try discriminate Hsong; simpl.
    + destruct (bool_decide (s = "")); simpl.
      * by rewrite IH.
      * rewrite IH by done. by rewrite <- app_assoc.
    + by rewrite IH.
Qed.

Lemma outer_loop_names (ss : list json) (acc : list json) :
  forallb set_shaped ss = true ->
  Res.for_each (fun songs s =>
    let? song_ := py_get s "song" (JArr []) in
    let? inner := py_iter (py_or song_ (JArr [])) in
    Res.for_each (fun songs song =>
      let? title := py_get song "name" JNull in
      if truthy title then Ok (songs ++ [title]) else Ok songs) inner songs)
    ss acc
  = Ok (acc ++ (JStr <$> flat_map set_titles ss)).
Proof.
  revert acc. induction ss as [|s ss IH]; intros acc Hs; simpl.
  - by rewrite app_nil_r.
  - simpl in Hs. apply andb_prop in Hs as [Hset Hrest].
    destruct s as [| | | |?|fields]; try discriminate Hset.
    unfold set_titles, set_shaped in *. simpl in *.
    destruct (assoc "song" fields) as [[| | | |songs|]|] eqn:E;
      try discriminate Hset; simpl.
    + by rewrite IH.
    + rewrite py_iter_or_array. simpl.
      rewrite inner_loop_names by done. simpl.
      rewrite IH by done. by rewrite fmap_app, <- app_assoc.
    + by rewrite IH.
Qed.

Lemma parse_songs_shaped (doc : json) :
  setlist_document doc = true ->
  parse_songs_from_setlist doc = Ok (JStr <$> document_titles doc).
Proof.
  intros Hdoc. destruct doc as [| | | |?|fields]; try discriminate Hdoc.
  unfold parse_songs_from_setlist, document_titles, setlist_document in *.
  simpl in *.
  destruct (assoc "sets" fields) as [[| | | |?|sets]|] eqn:E;
    try discriminate Hdoc; simpl; [|done].
  destruct (assoc "set" sets) as [[| | | |ss|]|] eqn:E';
    try discriminate Hdoc; simpl; [done| |done].
  rewrite py_iter_or_array. simpl. by rewrite outer_loop_names.
Qed.

(** C2. On every setlist-shaped document [parse_songs_from_setlist] returns,
    without raising, exactly the non-empty ["name"] values of the song
    entries, the sets in document order and the songs of each set in document
    order; entries without a name are skipped; a document without the
    ["sets"] key, or whose sets have no ["song"] key, gives the empty list. *)
Theorem parse_songs_from_setlist_titles (doc : json) :
  setlist_document doc = true ->
  parse_songs_from_setlist doc = Ok (JStr <$> document_titles doc)
  /\ (member "sets" doc = None -> parse_songs_from_setlist doc = Ok [])
  /\ (Forall (fun s => member "song" s = None)
        (array_items (mbind (member "set") (member "sets" doc))) ->
      parse_songs_from_setlist doc = Ok []).
Proof.
  intros Hdoc. pose proof (parse_songs_shaped doc Hdoc) as Hparse.
  split; [done|]. split.
  - intros Hnone. rewrite Hparse. unfold document_titles. by rewrite Hnone.
  - intros Hall. rewrite Hparse. unfold document_titles.
    induction Hall as [|s ss Hs _ IH]; [done|].
    simpl. unfold set_titles at 1. rewrite Hs. simpl. exact IH.
Qed.

(** * Truncation *)

(** C3, as stated, fails for a negative [--max-songs]: [songs[:-1]] of three
    titles has two elements, not [min(-1, 3)]. *)
Lemma truncation_negative_cap :
  Z.of_nat (length (py_slice_to [JStr "A"; JStr "B"; JStr "C"] (-1)))
  <> Z.min (-1) (Z.of_nat (length [JStr "A"; JStr "B"; JStr "C"])).
Proof. vm_compute. discriminate. Qed.

Lemma truncation_length_nonneg {A} (songs : list A) (N : Z) :
  0 <= N ->
  Z.of_nat (length (py_slice_to songs N)) = Z.min N (Z.of_nat (length songs)).
Proof.
  intros HN. unfold py_slice_to.
  destruct (Z.leb_spec 0 N) as [_|Hneg]; [|lia].
  rewrite length_take. lia.
Qed.

(** C3, amended. For every title sequence and every [N >= 0] given to
    [--max-songs] (the default 200 included), the sequence handed to the
    matching loop has length exactly [min(N, total_titles)]. *)
Theorem truncation_length {A} (songs : list A) (N : Z) :
  0 <= N ->
  Z.of_nat (length (py_slice_to songs N)) = Z.min N (Z.of_nat (length songs)).
Proof. apply truncation_length_nonneg. Qed.

Lemma truncation_length_witness :
  0 <= default_max_songs
  /\ Z.of_nat (length (py_slice_to [JStr "A"; JStr "B"] default_max_songs))
     = Z.min default_max_songs 2.
Proof.
  split.
  - intros H. discriminate H.
  - apply (truncation_length [JStr "A"; JStr "B"] default_max_songs).
    intros H. discriminate H.
Defined.

Lemma parse_songs_from_setlist_titles_witness :
  setlist_document sample_document = true
  /\ parse_songs_from_setlist sample_document
     = Ok [JStr "A"; JStr "B"; JStr "Encore"].
Proof.
  split; [reflexivity|].
  exact (proj1 (parse_songs_from_setlist_titles sample_document eq_refl)).
Defined.

(** * Candidate extraction *)

Lemma candidates_loop (entries : list element) (ids : list candidate) :
  foldl (fun ids song =>
           let sid := attrib_of song !! "id" in
           let sname :=
             if truthy_attr (attrib_of song !! "title")
             then attrib_of song !! "title"
             else attrib_of song !! "name" in
           match sid with
           | Some i => if truthy_attr sid then ids ++ [(i, sname)] else ids
           | None => ids
           end) ids entries
  = ids ++ omap candidate_of entries.
Proof.
  revert ids. induction entries as [|song entries IH]; intros ids; simpl.
  - by rewrite app_nil_r.
  - rewrite IH. unfold candidate_of.
    destruct (attrib_of song !! "id") as [i|]; simpl; [|done].
    destruct (bool_decide (i = "")); simpl; [done|].
    by rewrite <- app_assoc.
Qed.

(** C7, as stated, fails: an entry with an identifier but neither a title nor
    a name is returned as a candidate, and the qualified entries come before
    the unqualified ones whatever their order in the response. *)
Lemma extract_keeps_untitled_entry :
  ET_fromstring mixed_runtime "search" = Some mixed_search_result
  /\ (fun e => attrib_of e !! "id") <$> descendants mixed_search_result
     = [Some "1"; Some "2"]
  /\ extract_song_ids_from_search_xml mixed_runtime "search" (JStr "T")
     = Ok [("2", Some "T"); ("1", None)].
Proof. repeat split. Qed.

(** C7, amended. For every search response that parses, the extraction
    returns exactly the song entries that carry a non-empty identifier
    attribute, each as the pair of that identifier and its display name (the
    title attribute when non-empty, else the name attribute, else nothing):
    first the namespace-qualified entries in document order, then the
    unqualified entries in document order, without scoring; entries with no
    or an empty identifier yield no candidate. *)
Theorem extract_song_ids_candidates (rt : runtime) (xml_text : string)
    (title : json) (root : element) :
  ET_fromstring rt xml_text = Some root ->
  extract_song_ids_from_search_xml rt xml_text title
  = Ok (omap candidate_of
          (filter (fun e => tag_of e = "{http://subsonic.org/restapi}song")
                  (descendants root)
           ++ filter (fun e => tag_of e = "song") (descendants root)))
  /\ (forall song, attrib_of song !! "id" = None \/ attrib_of song !! "id" = Some ""
                   -> candidate_of song = None)
  /\ (forall song i, attrib_of song !! "id" = Some i -> i <> "" ->
        exists name, candidate_of song = Some (i, name)
          /\ (name = attrib_of song !! "title"
              \/ name = attrib_of song !! "name")).
Proof.
  intros Hparse. unfold extract_song_ids_from_search_xml. rewrite Hparse.
  split; [|split].
  - unfold song_candidates. by rewrite candidates_loop.
  - intros song [H|H]; unfold candidate_of; by rewrite H.
  - intros song i Hid Hne. unfold candidate_of. rewrite Hid.
    rewrite bool_decide_eq_false_2 by done.
    eexists. split; [reflexivity|].
    destruct (truthy_attr _); auto.
Qed.

Lemma extract_song_ids_candidates_witness :
  ET_fromstring (sample_runtime 200) "search" = Some sample_search_result
  /\ extract_song_ids_from_search_xml (sample_runtime 200) "search"
       (JStr "Encore")
     = Ok [("id1", Some "Encore"); ("id2", Some "Encore (Live)")].
Proof.
  split; [reflexivity|].
  exact (proj1 (extract_song_ids_candidates (sample_runtime 200) "search"
                  (JStr "Encore") sample_search_result eq_refl)).
Defined.

(** * Request signing *)

Section Signing.
Variable rt : runtime.
Variable env : environ.

Lemma random_choices_run (k : nat) (w : world) :
  random_choices rt k w
  = (Ok ((fun i => nth (draw_index (tape rt i)) alphabet "a"%char)
           <$> seq (rng_pos w) k),
     advance_rng k w).
Proof.
  revert w. induction k as [|k IH]; intros w.
  - simpl. unfold ret, advance_rng. destruct w; simpl.
    by rewrite Nat.add_0_r.
  - simpl. unfold bind, next_draw. rewrite IH. simpl.
    unfold ret, advance_rng. simpl. do 2 f_equal. lia.
Qed.

Lemma random_salt_run (n : nat) (w : world) :
  random_salt rt n w = (Ok (salt_at rt (rng_pos w) n), advance_rng n w).
Proof.
  unfold random_salt, bind. by rewrite random_choices_run.
Qed.

Lemma subsonic_params_run (username password : string) (w : world) :
  subsonic_params rt env username password w
  = (Ok (<["u" := username]>
           (<["t" := md5hex rt (password +:+ salt_at rt (rng_pos w) 8)]>
              (<["s" := salt_at rt (rng_pos w) 8]>
                 (<["v" := "1.16.1"]> (<["c" := CLIENT_ID env]> ∅))))),
     advance_rng 8 w).
Proof.
  unfold subsonic_params, bind. by rewrite random_salt_run.
Qed.




(** The draws decide the salt: two blocks of draws spell the same salt
    exactly when they agree position by position. *)
Lemma salt_at_eq_iff (p q n : nat) :
  salt_at rt p n = salt_at rt q n
  <-> forall i, (i < n)%nat ->
        draw_index (tape rt (p + i)) = draw_index (tape rt (q + i)).
Proof.
  assert (Hnd : NoDup alphabet) by (apply (bool_decide_unpack _); vm_compute; exact I).
  assert (Hinj : forall a b : draw,
             nth (draw_index a) alphabet "a"%char
             = nth (draw_index b) alphabet "a"%char ->
             draw_index a = draw_index b).
  { intros [a Ha] [b Hb] Hab. simpl in *.
    apply Nat.ltb_lt in Ha, Hb.
    apply NoDup_ListNoDup in Hnd.
    exact (proj1 (List.NoDup_nth alphabet "a"%char) Hnd a b Ha Hb Hab). }
  unfold salt_at. split.
  - intros Heq.
    assert (Hl : (fun i => nth (draw_index (tape rt i)) alphabet "a"%char)
                   <$> seq p n
                 = (fun i => nth (draw_index (tape rt i)) alphabet "a"%char)
                   <$> seq q n).
    { rewrite <- (list_ascii_of_string_of_list_ascii (_ <$> seq p n)).
      rewrite Heq. apply list_ascii_of_string_of_list_ascii. }
    clear Heq. revert p q Hl. induction n as [|n IH]; intros p q Hl i Hi;
      [lia|].
    simpl in Hl. injection Hl as Hhd Htl.
    destruct i as [|i].
    + rewrite !Nat.add_0_r. by apply Hinj.
    + rewrite !Nat.add_succ_r, <- !Nat.add_succ_l. apply IH; [done|lia].
  - intros Hall. f_equal. revert p q Hall.
    induction n as [|n IH]; intros p q Hall; simpl; [done|].
    f_equal.
    + specialize (Hall 0%nat ltac:(lia)). rewrite !Nat.add_0_r in Hall.
      by rewrite Hall.
    + apply IH. intros i Hi. specialize (Hall (S i) ltac:(lia)).
      by rewrite !Nat.add_succ_r in Hall.
Qed.
End Signing.


(** C6, as stated, fails: nothing keeps the generator from repeating a block
    of draws, and then two consecutive signed calls with the same credentials
    carry the same salt and the same token. *)
Lemma signed_calls_can_share_salt :
  ~ (forall (rt : runtime) (env : environ) (username password : string)
            (w w1 w2 : world) (p1 p2 : gmap string string),
       subsonic_params rt env username password w = (Ok p1, w1) ->
       subsonic_params rt env username password w1 = (Ok p2, w2) ->
       p1 !! "s" <> p2 !! "s" /\ p1 !! "t" <> p2 !! "t").
Proof.
  intros Hclaim.
  destruct (Hclaim (sample_runtime 200) sample_environ "user" "secret"
              initial_world _ _ _ _
              (subsonic_params_run _ _ _ _ _)
              (subsonic_params_run _ _ _ _ _)) as [Hsalt _].
  apply Hsalt. reflexivity.
Qed.

(** C6, amended. Every signed call spells its salt from eight draws of its
    own: a call made after another one in the same run reads positions of the
    random stream that the earlier call did not read, and no salt is kept
    from one call to the next. With identical credentials the two salts are
    equal exactly when the two blocks of draws agree position by position,
    each token is the digest of the password followed by the salt of its own
    call, and equal salts give equal tokens. *)
Theorem signed_calls_draw_fresh_salts (rt : runtime) (env : environ)
    (username password : string) (w w' : world) :
  (rng_pos w + 8 <= rng_pos w')%nat ->
  exists (p1 p2 : gmap string string) (s1 s2 : string),
    subsonic_params rt env username password w = (Ok p1, advance_rng 8 w)
    /\ subsonic_params rt env username password w' = (Ok p2, advance_rng 8 w')
    /\ p1 !! "s" = Some s1 /\ p2 !! "s" = Some s2
    /\ s1 = salt_at rt (rng_pos w) 8 /\ s2 = salt_at rt (rng_pos w') 8
    /\ (forall i j, (i < 8)%nat -> (j < 8)%nat ->
          (rng_pos w + i)%nat <> (rng_pos w' + j)%nat)
    /\ p1 !! "t" = Some (md5hex rt (password +:+ s1))
    /\ p2 !! "t" = Some (md5hex rt (password +:+ s2))
    /\ (s1 = s2 <->
        forall i, (i < 8)%nat ->
          draw_index (tape rt (rng_pos w + i))
          = draw_index (tape rt (rng_pos w' + i)))
    /\ (s1 = s2 -> p1 !! "t" = p2 !! "t").
Proof.
  intros Hlater.
  eexists _, _, (salt_at rt (rng_pos w) 8), (salt_at rt (rng_pos w') 8).
  split; [apply subsonic_params_run|].
  split; [apply subsonic_params_run|].
  split; [by lookup_param|]. split; [by lookup_param|].
  split; [reflexivity|]. split; [reflexivity|].
  split; [intros i j Hi Hj; lia|].
  split; [by lookup_param|]. split; [by lookup_param|].
  split; [apply salt_at_eq_iff|].
  intros Heq. do 2 lookup_param. by rewrite Heq.
Qed.

Lemma signed_calls_draw_fresh_salts_witness :
  (rng_pos initial_world + 8 <= rng_pos (advance_rng 8 initial_world))%nat
  /\ exists (p1 p2 : gmap string string) (s1 s2 : string),
       subsonic_params (sample_runtime 200) sample_environ "user" "secret"
         initial_world = (Ok p1, advance_rng 8 initial_world)
       /\ subsonic_params (sample_runtime 200) sample_environ "user" "secret"
            (advance_rng 8 initial_world)
          = (Ok p2, advance_rng 8 (advance_rng 8 initial_world))
       /\ p1 !! "s" = Some s1 /\ p2 !! "s" = Some s2.
Proof.
  assert (H : (rng_pos initial_world + 8
               <= rng_pos (advance_rng 8 initial_world))%nat)
    by (vm_compute; apply le_n).
  split; [exact H|].
  destruct (signed_calls_draw_fresh_salts (sample_runtime 200) sample_environ
              "user" "secret" initial_world (advance_rng 8 initial_world) H)
    as (p1 & p2 & s1 & s2 & H1 & H2 & H3 & H4 & _).
  exists p1, p2, s1, s2. auto.
Defined.

(** * The matching loop *)

Section Matching.
Variable rt : runtime.
Variable env : environ.
Variable args : arguments.
Variable js : json.

Lemma print_accepted (m : message) (w : world) :
  stdout_accepts rt m = true -> print rt m w = (Ok tt, logged m w).
Proof. intros H. unfold print. by rewrite H. Qed.

Lemma print_refused (m : message) (w : world) :
  stdout_accepts rt m = false -> print rt m w = (Raise UnicodeEncodeError, w).
Proof. intros H. unfold print. by rewrite H. Qed.

Lemma print_exception (m : message) (w w' : world) (e : exn) :
  print rt m w = (Raise e, w') -> e = UnicodeEncodeError /\ w' = w.
Proof.
  unfold print. destruct (stdout_accepts rt m); [discriminate|].
  by intros [= <- <-].
Qed.

Lemma py_get_exception (x : json) (k : string) (d : json) (e : exn) :
  py_get x k d = Raise e -> e = AttributeError.
Proof. destruct x; simpl; congruence. Qed.

Lemma artist_hint_exception (e : exn) :
  artist_hint args js = Raise e -> e = AttributeError.
Proof.
  unfold artist_hint. destruct (falsy (artist args)); [|discriminate].
  destruct (py_get js "artist" (JObj [])) as [a|e'] eqn:E; simpl.
  - apply py_get_exception.
  - intros [= <-]. by apply py_get_exception in E.
Qed.

(** Everything a catalog lookup can raise is an [Exception]. *)
Lemma lookup_candidates_exception (title : json) (w w' : world) (e : exn) :
  lookup_candidates rt env args js title w = (Raise e, w') ->
  is_Exception e = true.
Proof.
  unfold lookup_candidates, bind, lift.
  destruct (artist_hint args js) as [hint|e'] eqn:Ehint.
  - unfold search_song, bind. rewrite subsonic_params_run.
    unfold subsonic_call, bind, send.
    destruct (net rt _ _) as [r|msg]; [|by intros [= <- _]].
    unfold raise_for_status.
    destruct (_ && _); simpl; [by intros [= <- _]|].
    unfold extract_song_ids_from_search_xml.
    destruct (ET_fromstring rt (text r)); [discriminate|by intros [= <- _]].
  - intros [= <- _]. by rewrite (artist_hint_exception _ Ehint).
Qed.

(** One iteration, whatever the list it starts from: it returns exactly
    when it returns from the empty list, it then has added the first
    candidate's identifier when the lookup returned at least one candidate
    and nothing otherwise, and it leaves the same world. *)
Lemma match_title_run (matched_ids : list string) (title : json)
    (w : world) :
  match_title rt env args js matched_ids title w
  = (match (match_title rt env args js [] title w).1 with
     | Ok _ =>
         Ok (matched_ids
               ++ option_list
                    (first_id (lookup_candidates rt env args js title w).1))
     | Raise e => Raise e
     end,
     (match_title rt env args js [] title w).2).
Proof.
  unfold match_title, attempt, bind, try_except, search_failed, bind, print,
    ret.
  destruct (lookup_candidates rt env args js title w) as [[ids|e] w1] eqn:E.
  - destruct ids as [|[chosen_id name] ids]; simpl.
    + destruct (stdout_accepts rt (MsgNoMatch title)); simpl;
        [by rewrite app_nil_r|].
      destruct (stdout_accepts rt (MsgSearchError title UnicodeEncodeError));
        simpl; [by rewrite app_nil_r | done].
    + destruct (stdout_accepts rt (MsgMatched title name chosen_id)); simpl;
        [done|].
      destruct (stdout_accepts rt (MsgSearchError title UnicodeEncodeError));
        simpl; done.
  - rewrite (lookup_candidates_exception _ _ _ _ E). simpl.
    destruct (stdout_accepts rt (MsgSearchError title e)); simpl;
      [by rewrite app_nil_r | done].
Qed.

(** The only exception that leaves an iteration is the one raised by the
    handler's own [print]. *)
Lemma match_title_exception (matched_ids : list string) (title : json)
    (w w' : world) (e : exn) :
  match_title rt env args js matched_ids title w = (Raise e, w') ->
  e = UnicodeEncodeError
  /\ exists e', stdout_accepts rt (MsgSearchError title e') = false.
Proof.
  unfold match_title, attempt, bind, try_except, search_failed, bind, print,
    ret.
  destruct (lookup_candidates rt env args js title w) as [[ids|e0] w1] eqn:E.
  - destruct ids as [|[chosen_id name] ids]; simpl.
    + destruct (stdout_accepts rt (MsgNoMatch title)); simpl; [discriminate|].
      destruct (stdout_accepts rt (MsgSearchError title UnicodeEncodeError))
        eqn:Ha; simpl; [discriminate|].
      intros [= <- _]. eauto.
    + destruct (stdout_accepts rt (MsgMatched title name chosen_id)); simpl;
        [discriminate|].
      destruct (stdout_accepts rt (MsgSearchError title UnicodeEncodeError))
        eqn:Ha; simpl; [discriminate|].
      intros [= <- _]. eauto.
  - rewrite (lookup_candidates_exception _ _ _ _ E). simpl.
    destruct (stdout_accepts rt (MsgSearchError title e0)) eqn:Ha; simpl;
      [discriminate|].
    intros [= <- _]. eauto.
Qed.

Lemma match_title_returns (title : json) (w : world) :
  (forall e, stdout_accepts rt (MsgSearchError title e) = true) ->
  exists added, (match_title rt env args js [] title w).1 = Ok added.
Proof.
  intros Hacc.
  destruct (match_title rt env args js [] title w) as [[added|e] w1] eqn:E;
    [by eexists|].
  apply match_title_exception in E as (_ & e' & He'). congruence.
Qed.

(** When the loop returns, it returns the identifiers of the first
    candidates, one lookup outcome per title. *)
Lemma match_titles_ok (songs : list json) (matched_ids ids : list string)
    (w w' : world) :
  match_titles rt env args js songs matched_ids w = (Ok ids, w') ->
  ids = matched_ids ++ omap first_id (title_outcomes rt env args js songs w).
Proof.
  revert matched_ids w. induction songs as [|title rest IH];
    intros matched_ids w; simpl.
  - intros [= <- _]. by rewrite app_nil_r.
  - unfold bind. rewrite match_title_run.
    destruct (match_title rt env args js [] title w).1 as [added|e];
      [|discriminate].
    intros Hrest. apply IH in Hrest. rewrite Hrest.
    unfold title_outcomes. simpl.
    destruct (first_id _); simpl; by rewrite <- app_assoc.
Qed.

Lemma match_titles_exception (songs : list json) (matched_ids : list string)
    (w w' : world) (e : exn) :
  match_titles rt env args js songs matched_ids w = (Raise e, w') ->
  e = UnicodeEncodeError
  /\ exists title e', title ∈ songs
                      /\ stdout_accepts rt (MsgSearchError title e') = false.
Proof.
  revert matched_ids w. induction songs as [|title rest IH];
    intros matched_ids w; simpl.
  - discriminate.
  - unfold bind.
    destruct (match_title rt env args js matched_ids title w)
      as [[matched'|e0] w1] eqn:E.
    + intros Hrest. apply IH in Hrest as (-> & t & e' & Ht & He').
      split; [done|]. exists t, e'. split; [by right|done].
    + intros [= <- _]. apply match_title_exception in E as (-> & e' & He').
      split; [done|]. exists title, e'. split; [by left|done].
Qed.

(** The loop returns whenever standard output accepts the error line of
    every title. *)
Lemma match_titles_returns (songs : list json) (matched_ids : list string)
    (w : world) :
  (forall title e, title ∈ songs ->
     stdout_accepts rt (MsgSearchError title e) = true) ->
  exists w',
    match_titles rt env args js songs matched_ids w
    = (Ok (matched_ids
             ++ omap first_id (title_outcomes rt env args js songs w)), w').
Proof.
  intros Hacc.
  destruct (match_titles rt env args js songs matched_ids w)
    as [[ids|e] w'] eqn:E.
  - exists w'. by rewrite (match_titles_ok _ _ _ _ _ E).
  - apply match_titles_exception in E as (_ & t & e' & Ht & He').
    rewrite Hacc in He' by done. discriminate.
Qed.

Lemma title_outcomes_length (songs : list json) (w : world) :
  length (title_outcomes rt env args js songs w) = length songs.
Proof.
  unfold title_outcomes. revert w.
  induction songs as [|title rest IH]; intros w; simpl; [done|].
  by rewrite IH.
Qed.

Lemma omap_length_le {A B} (f : A -> option B) (l : list A) :
  (length (omap f l) <= length l)%nat.
Proof.
  induction l as [|x l IH]; csimpl; [done|].
  destruct (f x); simpl; lia.
Qed.

Lemma match_titles_length (songs : list json) (w w' : world)
    (ids : list string) :
  match_titles rt env args js songs [] w = (Ok ids, w') ->
  (length ids <= length songs)%nat.
Proof.
  intros Hrun. apply match_titles_ok in Hrun as ->. simpl.
  rewrite <- (title_outcomes_length songs w). apply omap_length_le.
Qed.
End Matching.

(** * The whole run *)

Section Run.
Variable rt : runtime.
Variable env : environ.
Variable args : arguments.

Lemma collect_configuration_missing (w : world) :
  configuration_missing env args = true ->
  exists w', collect_matched_ids rt env args w = (Raise (SystemExit 2), w').
Proof.
  unfold configuration_missing, collect_matched_ids. intros H.
  destruct (falsy (NAV_BASE_URL env) || falsy (NAV_USERNAME env)
            || falsy (NAV_PASSWORD env)) eqn:E1; [by eexists|].
  destruct (falsy (SETLISTFM_API_KEY env)) eqn:E2; [by eexists|].
  simpl in H. rewrite H. by eexists.
Qed.

(** With the configuration in place the run is decided by the two notices
    it prints, the fetch, the title extraction and the matching loop. *)
Lemma collect_configuration_present (w : world) :
  configuration_missing env args = false ->
  collect_matched_ids rt env args w
  = let id := val (resolve_setlist_id args) in
    if stdout_accepts rt (MsgFetching id)
    then
      match fetch_setlist_by_id rt env id (logged (MsgFetching id) w) with
      | (Raise e, w1) => (Raise e, w1)
      | (Ok js, w1) =>
          match parse_songs_from_setlist js with
          | Raise e => (Raise e, w1)
          | Ok [] => (Raise (SystemExit 1), (eprint MsgNoSongs w1).2)
          | Ok songs =>
              let songs := py_slice_to songs (max_songs args) in
              if stdout_accepts rt (MsgFound (length songs))
              then
                match match_titles rt env args js songs []
                        (logged (MsgFound (length songs)) w1) with
                | (Raise e, w2) => (Raise e, w2)
                | (Ok [], w2) =>
                    (Raise (SystemExit 1), (eprint MsgNothingMatched w2).2)
                | (Ok ids, w2) => (Ok ids, w2)
                end
              else (Raise UnicodeEncodeError, w1)
          end
      end
    else (Raise UnicodeEncodeError, w).
Proof.
  unfold configuration_missing, collect_matched_ids. intros H.
  apply orb_false_elim in H as [H H5].
  apply orb_false_elim in H as [H H4].
  rewrite H, H4, H5. cbv zeta.
  unfold bind at 1. unfold print at 1. fold (logged (MsgFetching (val (resolve_setlist_id args))) w).
  destruct (stdout_accepts rt (MsgFetching _)); [|done].
  unfold bind at 1.
  destruct (fetch_setlist_by_id _ _ _ _) as [[js|e] w1]; [|done].
  unfold bind at 1, lift.
  destruct (parse_songs_from_setlist js) as [[|t songs]|e]; [done| |done].
  unfold bind at 1. unfold print at 1.
  fold (logged (MsgFound (length (py_slice_to (t :: songs) (max_songs args))))
          w1).
  destruct (stdout_accepts rt (MsgFound _)); [|done].
  unfold bind at 1.
  destruct (match_titles _ _ _ _ _ _ _) as [[[|i ids]|e] w2]; done.
Qed.

Lemma fetch_exception (id : string) (w w' : world) (e : exn) :
  fetch_setlist_by_id rt env id w = (Raise e, w') -> is_Exception e = true.
Proof.
  unfold fetch_setlist_by_id.
  destruct (falsy (SETLISTFM_API_KEY env)); [by intros [= <- _]|].
  unfold bind, send.
  destruct (net rt _ _) as [r|msg]; [|by intros [= <- _]].
  unfold raise_for_status.
  destruct (_ && _); simpl; [by intros [= <- _]|].
  unfold response_json. destruct (json_loads rt (text r)); simpl.
  - discriminate.
  - by intros [= <- _].
Qed.

Lemma for_each_exception {A S} (body : S -> A -> result S) (l : list A)
    (acc : S) (e : exn) :
  (forall acc x e, body acc x = Raise e -> is_Exception e = true) ->
  Res.for_each body l acc = Raise e -> is_Exception e = true.
Proof.
  intros Hbody. revert acc. induction l as [|x l IH]; intros acc; simpl.
  - discriminate.
  - destruct (body acc x) as [acc'|e'] eqn:E; simpl.
    + apply IH.
    + intros [= <-]. by apply (Hbody _ _ _ E).
Qed.

Lemma py_iter_exception (x : json) (e : exn) :
  py_iter x = Raise e -> is_Exception e = true.
Proof. destruct x; simpl; try discriminate; by intros [= <-]. Qed.

Lemma py_get_is_exception (x : json) (k : string) (d : json) (e : exn) :
  py_get x k d = Raise e -> is_Exception e = true.
Proof. destruct x; simpl; try discriminate; by intros [= <-]. Qed.

Lemma parse_exception (doc : json) (e : exn) :
  parse_songs_from_setlist doc = Raise e -> is_Exception e = true.
Proof.
  unfold parse_songs_from_setlist.
  destruct (py_get doc "sets" (JObj [])) as [sets|e1] eqn:E1; simpl;
    [|intros [= <-]; by apply (py_get_is_exception _ _ _ _ E1)].
  destruct (py_get sets "set" (JArr [])) as [set_|e2] eqn:E2; simpl;
    [|intros [= <-]; by apply (py_get_is_exception _ _ _ _ E2)].
  destruct (py_iter (py_or set_ (JArr []))) as [outer|e3] eqn:E3; simpl;
    [|intros [= <-]; by apply (py_iter_exception _ _ E3)].
  apply for_each_exception. intros acc s e'.
  destruct (py_get s "song" (JArr [])) as [song_|e4] eqn:E4; simpl;
    [|intros [= <-]; by apply (py_get_is_exception _ _ _ _ E4)].
  destruct (py_iter (py_or song_ (JArr []))) as [inner|e5] eqn:E5; simpl;
    [|intros [= <-]; by apply (py_iter_exception _ _ E5)].
  apply for_each_exception. intros acc' song e''.
  destruct (py_get song "name" JNull) as [title|e6] eqn:E6; simpl;
    [|intros [= <-]; by apply (py_get_is_exception _ _ _ _ E6)].
  destruct (truthy title); discriminate.
Qed.

Lemma create_exception (base username password name : string)
    (ids : list string) (w w' : world) (e : exn) :
  create_playlist rt env base username password name ids w = (Raise e, w') ->
  is_Exception e = true.
Proof.
  unfold create_playlist, bind. rewrite subsonic_params_run.
  unfold send. destruct (net rt _ _) as [r|msg]; [|by intros [= <- _]].
  unfold raise_for_status.
  destruct (_ && _); simpl; [by intros [= <- _]|discriminate].
Qed.

(** What leaves [collect_matched_ids] is a result, [sys.exit(1)],
    [sys.exit(2)], or an exception nobody handles. *)
Lemma collect_exit_codes (w w' : world) (e : exn) :
  collect_matched_ids rt env args w = (Raise e, w') ->
  is_Exception e = true
  \/ (e = SystemExit 2 /\ configuration_missing env args = true)
  \/ (e = SystemExit 1 /\ configuration_missing env args = false).
Proof.
  destruct (configuration_missing env args) eqn:Hcfg.
  - destruct (collect_configuration_missing w Hcfg) as [w2 ->].
    intros [= <- _]. auto.
  - rewrite (collect_configuration_present w Hcfg). cbv zeta.
    destruct (stdout_accepts rt (MsgFetching _)); [|intros [= <- _]; auto].
    destruct (fetch_setlist_by_id _ _ _ _) as [[js|e1] w1] eqn:E1;
      [|intros [= <- _]; left; by apply (fetch_exception _ _ _ _ E1)].
    destruct (parse_songs_from_setlist js) as [[|t songs]|e2] eqn:E2;
      [intros [= <- _]; auto |
      |intros [= <- _]; left; by apply (parse_exception _ _ E2)].
    destruct (stdout_accepts rt (MsgFound _)); [|intros [= <- _]; auto].
    destruct (match_titles rt env args js _ [] _) as [[[|i ids]|e3] w2] eqn:E3.
    + intros [= <- _]. auto.
    + discriminate.
    + intros [= <- _]. left.
      by apply match_titles_exception in E3 as (-> & _).
Qed.

(** A run that reaches the publishing step printed its two notices, fetched
    a document, extracted at least one title from it and matched the
    truncated titles. *)
Lemma collect_matched_ids_ok (w w' : world) (ids : list string) :
  collect_matched_ids rt env args w = (Ok ids, w') ->
  exists js w1 songs,
    configuration_missing env args = false
    /\ stdout_accepts rt (MsgFetching (val (resolve_setlist_id args))) = true
    /\ fetch_setlist_by_id rt env (val (resolve_setlist_id args))
         (logged (MsgFetching (val (resolve_setlist_id args))) w)
       = (Ok js, w1)
    /\ parse_songs_from_setlist js = Ok songs
    /\ stdout_accepts rt
         (MsgFound (length (py_slice_to songs (max_songs args)))) = true
    /\ match_titles rt env args js (py_slice_to songs (max_songs args)) []
         (logged (MsgFound (length (py_slice_to songs (max_songs args)))) w1)
       = (Ok ids, w')
    /\ ids <> [].
Proof.
  intros Hrun.
  destruct (configuration_missing env args) eqn:Hcfg.
  { destruct (collect_configuration_missing w Hcfg) as [w2 Hw2].
    rewrite Hw2 in Hrun. discriminate. }
  rewrite (collect_configuration_present w Hcfg) in Hrun. cbv zeta in Hrun.
  destruct (stdout_accepts rt (MsgFetching _)) eqn:Ha1; [|discriminate].
  destruct (fetch_setlist_by_id _ _ _ _) as [[js|e1] w1]; [|discriminate].
  destruct (parse_songs_from_setlist js) as [[|t songs]|e2] eqn:E2;
    [discriminate| |discriminate].
  destruct (stdout_accepts rt (MsgFound _)) eqn:Ha2; [|discriminate].
  exists js, w1, (t :: songs).
  destruct (match_titles rt env args js _ [] _) as [[[|i ids1]|e3] w2] eqn:E3;
    [discriminate| |discriminate].
  injection Hrun as <- <-. done.
Qed.

Lemma publish_run (ids : list string) (w : world) :
  publish rt env args ids w
  = let notice := MsgCreating (playlist_name args) (length ids) in
    if stdout_accepts rt notice
    then
      match create_playlist rt env (val (NAV_BASE_URL env))
              (val (NAV_USERNAME env)) (val (NAV_PASSWORD env))
              (playlist_name args) ids (logged notice w) with
      | (Raise e, w1) => (Raise e, w1)
      | (Ok r, w1) =>
          if stdout_accepts rt MsgCreated
          then
            if stdout_accepts rt (MsgServerResponse (text r))
            then (Ok tt,
                  logged (MsgServerResponse (text r)) (logged MsgCreated w1))
            else (Raise UnicodeEncodeError, logged MsgCreated w1)
          else (Raise UnicodeEncodeError, w1)
      end
    else (Raise UnicodeEncodeError, w).
Proof.
  unfold publish. cbv zeta. unfold bind at 1. unfold print at 1.
  fold (logged (MsgCreating (playlist_name args) (length ids)) w).
  destruct (stdout_accepts rt (MsgCreating _ _)); [|done].
  unfold bind at 1.
  destruct (create_playlist _ _ _ _ _ _ _ _) as [[r|e] w1]; [|done].
  unfold bind, print.
  fold (logged MsgCreated w1).
  destruct (stdout_accepts rt MsgCreated); [|done].
  fold (logged (MsgServerResponse (text r)) (logged MsgCreated w1)).
  by destruct (stdout_accepts rt (MsgServerResponse _)).
Qed.

Lemma main_run (w : world) :
  main rt env args w
  = match collect_matched_ids rt env args w with
    | (Ok ids, w1) => publish rt env args ids w1
    | (Raise e, w1) => (Raise e, w1)
    end.
Proof. reflexivity. Qed.

Lemma publish_exception (ids : list string) (w w' : world) (e : exn) :
  publish rt env args ids w = (Raise e, w') -> is_Exception e = true.
Proof.
  rewrite publish_run. cbv zeta.
  destruct (stdout_accepts rt (MsgCreating _ _)); [|by intros [= <- _]].
  destruct (create_playlist _ _ _ _ _ _ _ _) as [[r|e'] w1] eqn:E.
  - destruct (stdout_accepts rt MsgCreated); [|by intros [= <- _]].
    destruct (stdout_accepts rt (MsgServerResponse _));
      [discriminate | by intros [= <- _]].
  - intros [= <- _]. by apply (create_exception _ _ _ _ _ _ _ _ E).
Qed.

Lemma main_exit_2 (w : world) :
  (main rt env args w).1 = Raise (SystemExit 2)
  <-> configuration_missing env args = true.
Proof.
  rewrite main_run. split.
  - destruct (collect_matched_ids rt env args w) as [[ids|e] w1] eqn:E.
    + destruct (publish rt env args ids w1) as [[[]|e] w2] eqn:Ep;
        [discriminate|].
      apply publish_exception in Ep. simpl. intros [= ->]. discriminate.
    + destruct (collect_exit_codes _ _ _ E) as [He|[[-> Hc]|[-> Hc]]].
      * simpl. intros [= ->]. discriminate.
      * done.
      * discriminate.
  - intros Hc. by destruct (collect_configuration_missing w Hc) as [w' ->].
Qed.

Lemma main_exit_1 (w : world) :
  (main rt env args w).1 = Raise (SystemExit 1)
  <-> configuration_missing env args = false
      /\ stdout_accepts rt (MsgFetching (val (resolve_setlist_id args))) = true
      /\ exists js w1,
           fetch_setlist_by_id rt env (val (resolve_setlist_id args))
             (logged (MsgFetching (val (resolve_setlist_id args))) w)
           = (Ok js, w1)
           /\ (parse_songs_from_setlist js = Ok []
               \/ exists songs w2,
                    parse_songs_from_setlist js = Ok songs
                    /\ stdout_accepts rt
                         (MsgFound (length (py_slice_to songs (max_songs args))))
                       = true
                    /\ match_titles rt env args js
                         (py_slice_to songs (max_songs args)) []
                         (logged (MsgFound
                                    (length (py_slice_to songs (max_songs args))))
                            w1)
                       = (Ok [], w2)).
Proof.
  rewrite main_run. split.
  - intros Hout.
    destruct (configuration_missing env args) eqn:Hcfg.
    { destruct (collect_configuration_missing w Hcfg) as [w' Hw'].
      rewrite Hw' in Hout. discriminate. }
    split; [done|].
    rewrite (collect_configuration_present w Hcfg) in Hout. cbv zeta in Hout.
    destruct (stdout_accepts rt (MsgFetching _)) eqn:Ha1; [|discriminate].
    split; [done|].
    destruct (fetch_setlist_by_id _ _ _ _) as [[js|e1] w1] eqn:E1.
    2:{ apply fetch_exception in E1. simpl in Hout.
        injection Hout as ->. discriminate. }
    exists js, w1. split; [done|].
    destruct (parse_songs_from_setlist js) as [[|t songs]|e2] eqn:E2.
    + by left.
    + right. exists (t :: songs).
      destruct (stdout_accepts rt (MsgFound _)) eqn:Ha2; [|discriminate].
      destruct (match_titles rt env args js _ [] _)
        as [[[|i ids]|e3] w2] eqn:E3.
      * exists w2. done.
      * destruct (publish rt env args (i :: ids) w2) as [[[]|e] w3] eqn:Ep;
          [discriminate|].
        apply publish_exception in Ep. simpl in Hout.
        injection Hout as ->. discriminate.
      * apply match_titles_exception in E3 as (-> & _). discriminate.
    + apply parse_exception in E2. simpl in Hout.
      injection Hout as ->. discriminate.
  - intros (Hcfg & Ha1 & js & w1 & Hfetch & Hrest).
    rewrite (collect_configuration_present w Hcfg). cbv zeta.
    rewrite Ha1, Hfetch.
    destruct Hrest as [-> | (songs & w2 & -> & Ha2 & Hloop)]; [done|].
    destruct songs as [|t songs]; [done|].
    by rewrite Ha2, Hloop.
Qed.

Lemma main_exit_codes (w : world) (code : Z) :
  (main rt env args w).1 = Raise (SystemExit code) -> code = 1 \/ code = 2.
Proof.
  rewrite main_run.
  destruct (collect_matched_ids rt env args w) as [[ids|e] w1] eqn:E.
  - destruct (publish rt env args ids w1) as [[[]|e] w2] eqn:Ep;
      [discriminate|].
    apply publish_exception in Ep. simpl. intros [= ->]. discriminate.
  - destruct (collect_exit_codes _ _ _ E) as [He|[[-> _]|[-> _]]]; simpl.
    + intros [= ->]. discriminate.
    + intros [= <-]. by right.
    + intros [= <-]. by left.
Qed.
End Run.

(** * The published order *)

(** C1. In every run the matched identifiers are, in loop order, the
    identifier of the first candidate of every title whose lookup returned at
    least one candidate; a title whose lookup returned no candidate (or
    failed) contributes nothing. There is one lookup outcome per title of the
    truncated title sequence, taken in setlist order, so the result is the
    surviving subsequence: nothing is reordered and nothing but the first
    result is selected. This is what the loop returns whenever it returns,
    and it returns whenever standard output accepts the error line of every
    title; the list a run publishes is the one so obtained from the titles of
    the document it fetched. *)
Theorem matched_ids_first_candidates (rt : runtime) (env : environ)
    (args : arguments) :
  (forall js songs w,
     length (title_outcomes rt env args js songs w) = length songs
     /\ (forall ids w',
           match_titles rt env args js songs [] w = (Ok ids, w') ->
           ids = omap first_id (title_outcomes rt env args js songs w))
     /\ ((forall title e, title ∈ songs ->
            stdout_accepts rt (MsgSearchError title e) = true) ->
         exists w',
           match_titles rt env args js songs [] w
           = (Ok (omap first_id (title_outcomes rt env args js songs w)), w')))
  /\ (forall w ids w',
        collect_matched_ids rt env args w = (Ok ids, w') ->
        exists js w1 songs,
          fetch_setlist_by_id rt env (val (resolve_setlist_id args))
            (logged (MsgFetching (val (resolve_setlist_id args))) w)
          = (Ok js, w1)
          /\ parse_songs_from_setlist js = Ok songs
          /\ ids = omap first_id
                     (title_outcomes rt env args js
                        (py_slice_to songs (max_songs args))
                        (logged (MsgFound
                                   (length (py_slice_to songs (max_songs args))))
                           w1)))
  /\ (forall chosen_id name rest,
        first_id (Ok ((chosen_id, name) :: rest)) = Some chosen_id)
  /\ first_id (Ok []) = None
  /\ (forall e, first_id (Raise e) = None).
Proof.
  split; [|split; [|done]].
  - intros js songs w. split; [apply title_outcomes_length|]. split.
    + intros ids w' Hrun. by apply match_titles_ok in Hrun.
    + intros Hacc. by apply (match_titles_returns rt env args js songs []).
  - intros w ids w' Hrun.
    destruct (collect_matched_ids_ok rt env args w w' ids Hrun)
      as (js & w1 & songs & _ & _ & Hfetch & Hparse & _ & Hloop & _).
    exists js, w1, songs. split; [done|]. split; [done|].
    by apply match_titles_ok in Hloop.
Qed.

Lemma matched_ids_first_candidates_witness :
  collect_matched_ids (sample_runtime 200) sample_environ (sample_arguments 2)
    initial_world
  = (Ok ["id1"; "id1"],
     World 16 3
       [MsgFetching "7bd6f1ac"; MsgFound 2;
        MsgMatched (JStr "A") (Some "Encore") "id1";
        MsgMatched (JStr "B") (Some "Encore") "id1"] [])
  /\ exists js w1 songs,
       parse_songs_from_setlist js = Ok songs
       /\ ["id1"; "id1"]
          = omap first_id
              (title_outcomes (sample_runtime 200) sample_environ
                 (sample_arguments 2) js (py_slice_to songs 2)
                 (logged (MsgFound (length (py_slice_to songs 2))) w1)).
Proof.
  assert (H : collect_matched_ids (sample_runtime 200) sample_environ
                (sample_arguments 2) initial_world
              = (Ok ["id1"; "id1"],
                 World 16 3
                   [MsgFetching "7bd6f1ac"; MsgFound 2;
                    MsgMatched (JStr "A") (Some "Encore") "id1";
                    MsgMatched (JStr "B") (Some "Encore") "id1"] []))
    by (vm_compute; reflexivity).
  split; [exact H|].
  destruct (proj1 (proj2 (matched_ids_first_candidates (sample_runtime 200)
                            sample_environ (sample_arguments 2)))
              _ _ _ H) as (js & w1 & songs & _ & Hparse & Hids).
  exists js, w1, songs. split; [exact Hparse | exact Hids].
Defined.

(** Scenario 4 of the specification: of two candidates the first wins. *)
Example first_result_wins :
  first_id (Ok [("id1", Some "Encore"); ("id2", Some "Encore (Live)")])
  = Some "id1".
Proof. reflexivity. Qed.

(** * Failures of a single title *)

(** C4, as stated, fails: the handler reports the failed title with a
    [print], and when standard output cannot encode that line the [print]
    raises in its turn. Here the search of the first title fails to parse,
    the handler's line is refused, and the loop ends with
    [UnicodeEncodeError] after one search: the second title is never
    searched and the run ends with status 1. *)
Lemma unprintable_title_aborts_loop :
  parse_songs_from_setlist tokyo_document = Ok [tokyo; JStr "B"]
  /\ lookup_candidates latin1_runtime sample_environ (sample_arguments 200)
       tokyo_document tokyo initial_world
     = (Raise ParseError, World 8 1 [] [])
  /\ stdout_accepts latin1_runtime (MsgSearchError tokyo ParseError) = false
  /\ match_titles latin1_runtime sample_environ (sample_arguments 200)
       tokyo_document [tokyo; JStr "B"] [] initial_world
     = (Raise UnicodeEncodeError, World 8 1 [] [])
  /\ main latin1_runtime sample_environ (sample_arguments 200) initial_world
     = (Raise UnicodeEncodeError,
        World 8 2 [MsgFetching "7bd6f1ac"; MsgFound 2] [])
  /\ exit_status
       (main latin1_runtime sample_environ (sample_arguments 200)
          initial_world).1 = 1.
Proof. repeat split; by vm_compute. Qed.

(** C4, amended. Any exception raised while searching a title or parsing
    its response is an [Exception] and is caught in the loop body: the title
    contributes no identifier and, when standard output accepts the line
    about it, the line is printed and the loop goes on with the next title.
    When standard output accepts the error line of every title, the loop
    returns whatever the searches do: no search or parse failure aborts
    it. *)
Theorem search_failure_is_contained (rt : runtime) (env : environ)
    (args : arguments) (js : json) :
  (forall songs matched_ids w,
     (forall title e, title ∈ songs ->
        stdout_accepts rt (MsgSearchError title e) = true) ->
     exists ids w',
       match_titles rt env args js songs matched_ids w = (Ok ids, w'))
  /\ (forall title rest matched_ids w e w1,
        lookup_candidates rt env args js title w = (Raise e, w1) ->
        is_Exception e = true
        /\ (stdout_accepts rt (MsgSearchError title e) = true ->
            match_title rt env args js matched_ids title w
            = (Ok matched_ids, logged (MsgSearchError title e) w1)
            /\ match_titles rt env args js (title :: rest) matched_ids w
               = match_titles rt env args js rest matched_ids
                   (logged (MsgSearchError title e) w1))).
Proof.
  split.
  - intros songs matched_ids w Hacc.
    destruct (match_titles_returns rt env args js songs matched_ids w Hacc)
      as [w' H].
    eauto.
  - intros title rest matched_ids w e w1 Hraise.
    pose proof (lookup_candidates_exception _ _ _ _ _ _ _ _ Hraise) as He.
    split; [exact He|]. intros Hacc.
    assert (Hstep : match_title rt env args js matched_ids title w
                    = (Ok matched_ids, logged (MsgSearchError title e) w1)).
    { unfold match_title, attempt. unfold bind at 1. rewrite Hraise, He.
      unfold search_failed, bind. by rewrite (print_accepted _ _ _ Hacc). }
    split; [exact Hstep|].
    simpl. unfold bind at 1. by rewrite Hstep.
Qed.

Lemma search_failure_is_contained_witness :
  lookup_candidates (sample_runtime 200) sample_environ (sample_arguments 200)
    (JObj [("artist", JStr "Band")]) (JStr "A") initial_world
  = (Raise AttributeError, initial_world)
  /\ match_titles (sample_runtime 200) sample_environ (sample_arguments 200)
       (JObj [("artist", JStr "Band")]) [JStr "A"; JStr "B"] [] initial_world
     = match_titles (sample_runtime 200) sample_environ (sample_arguments 200)
         (JObj [("artist", JStr "Band")]) [JStr "B"] []
         (World 0 0 [MsgSearchError (JStr "A") AttributeError] []).
Proof.
  split; [reflexivity|].
  exact (proj2 (proj2 (proj2 (search_failure_is_contained (sample_runtime 200)
                                sample_environ (sample_arguments 200)
                                (JObj [("artist", JStr "Band")]))
                         (JStr "A") [JStr "B"] [] initial_world AttributeError
                         initial_world eq_refl) eq_refl)).
Defined.

(** * Exit codes *)

(** C9, as stated, fails in two ways. With every required value present but
    the account secret set to the empty string the run leaves with code 2;
    and a run whose setlist fetch is answered with status 500 ends with
    process status 1 although no setlist was fetched and no title was
    searched. *)
Lemma exit_codes_beyond_the_claim :
  (is_Some (SETLISTFM_API_KEY empty_password_environ)
   /\ is_Some (NAV_BASE_URL empty_password_environ)
   /\ is_Some (NAV_USERNAME empty_password_environ)
   /\ is_Some (NAV_PASSWORD empty_password_environ)
   /\ is_Some (setlist_id (sample_arguments 200))
   /\ exit_status
        (main (sample_runtime 200) empty_password_environ
           (sample_arguments 200) initial_world).1 = 2)
  /\ (main (failing_fetch_runtime 500) sample_environ (sample_arguments 200)
        initial_world
      = (Raise (HTTPError 500 "setlist"),
         World 0 1 [MsgFetching "7bd6f1ac"] [])
      /\ exit_status
           (main (failing_fetch_runtime 500) sample_environ
              (sample_arguments 200) initial_world).1 = 1).
Proof. repeat split; eauto. Qed.

(** C9, amended. Once the command line has been parsed, [main] leaves
    through [sys.exit(2)] (after a diagnostic on standard error) exactly when
    a required environment value (API key, base URL, account name, account
    secret) is absent or empty, or no non-empty setlist id is given or
    derivable from the URL; it leaves through [sys.exit(1)] exactly when,
    with the configuration in place, the setlist was fetched and either
    yields zero titles or no title of the truncated sequence matched a
    candidate; a run that returns normally has status 0. Status 2 comes from
    [sys.exit(2)] only; status 1 also results from any exception that nobody
    handles. *)
Theorem main_exit_status (rt : runtime) (env : environ) (args : arguments)
    (w : world) :
  let out := (main rt env args w).1 in
  (out = Raise (SystemExit 2) <-> configuration_missing env args = true)
  /\ (forall v, falsy v = true <-> v = None \/ v = Some "")
  /\ (out = Raise (SystemExit 1)
      <-> configuration_missing env args = false
          /\ stdout_accepts rt (MsgFetching (val (resolve_setlist_id args)))
             = true
          /\ exists js w1,
               fetch_setlist_by_id rt env (val (resolve_setlist_id args))
                 (logged (MsgFetching (val (resolve_setlist_id args))) w)
               = (Ok js, w1)
               /\ (parse_songs_from_setlist js = Ok []
                   \/ exists songs w2,
                        parse_songs_from_setlist js = Ok songs
                        /\ stdout_accepts rt
                             (MsgFound
                                (length (py_slice_to songs (max_songs args))))
                           = true
                        /\ match_titles rt env args js
                             (py_slice_to songs (max_songs args)) []
                             (logged (MsgFound
                                        (length (py_slice_to songs
                                                   (max_songs args)))) w1)
                           = (Ok [], w2)))
  /\ (exit_status out = 2 <-> out = Raise (SystemExit 2))
  /\ (exit_status out = 1
      <-> out = Raise (SystemExit 1)
          \/ exists e, is_Exception e = true /\ out = Raise e)
  /\ (exit_status out = 0 <-> out = Ok tt).
Proof.
  intros out. split; [apply main_exit_2|].
  split.
  { intros [s|]; simpl.
    - rewrite bool_decide_eq_true. split; [intros ->; by right|].
      intros [|[= ->]]; done.
    - split; [by left|done]. }
  split; [apply main_exit_1|].
  pose proof (main_exit_codes rt env args w) as Hcodes. fold out in Hcodes.
  destruct out as [[]|e]; simpl.
  - repeat split; try done. intros [|(e & _ & ?)]; done.
  - destruct e as [ | |msg| | |msg|status body| |code]; simpl.
    1-8: (split; [split; [done | discriminate] |
          split; [split; [intros _; right; eexists; (split; [|reflexivity]);
                          reflexivity | done] |
                  split; [done | discriminate]]]).
    destruct (Hcodes code eq_refl) as [-> | ->].
    + split; [split; [done | discriminate]|].
      split; [split; [intros _; by left | done]|].
      split; [done | discriminate].
    + split; [done|].
      split; [split; [done | intros [[=]|(e & He & [= <-])]; discriminate]|].
      split; [done | discriminate].
Qed.

(** * Fatal HTTP failures *)

(** C8, as stated, fails: status 304 is not a success status, yet when the
    playlist call is answered with it nothing is raised, the success message
    is printed and the run ends with status 0. *)
Lemma redirect_status_is_not_raised :
  (forall i rq, req_method rq = "POST" ->
     net (sample_runtime 304) i rq = Replied (Response 304 ""))
  /\ ~ (200 <= 304 < 300)
  /\ main (sample_runtime 304) sample_environ (sample_arguments 200)
       initial_world
     = (Ok tt,
        World 32 5
          [MsgFetching "7bd6f1ac"; MsgFound 3;
           MsgMatched (JStr "A") (Some "Encore") "id1";
           MsgMatched (JStr "B") (Some "Encore") "id1";
           MsgMatched (JStr "Encore") (Some "Encore") "id1";
           MsgCreating "Band - Tour" 3; MsgCreated; MsgServerResponse ""]
          [])
  /\ exit_status
       (main (sample_runtime 304) sample_environ (sample_arguments 200)
          initial_world).1 = 0.
Proof.
  split; [|split; [lia|split; [by vm_compute|by vm_compute]]].
  intros i rq Hpost. simpl. by rewrite bool_decide_eq_true_2.
Qed.

Lemma error_status_raises (r : response) :
  400 <= status_code r < 600 ->
  (400 <=? status_code r) && (status_code r <? 600) = true.
Proof.
  intros [Hlo Hhi]. apply andb_true_intro.
  split; [by apply Z.leb_le | by apply Z.ltb_lt].
Qed.

(** C8, amended. An HTTP status in the client or server error range (400 to
    599) on the setlist fetch or on the playlist call raises an [HTTPError]
    carrying the status and the body; nothing handles it, so [main] ends with
    that exception and a non-zero status, and nothing is printed after the
    announcement of the failed call: no success message, no partial playlist
    recovery. (When standard output refuses the announcement itself, the run
    ends there, also with a non-zero status and without a success
    message.) *)
Theorem error_status_terminates_run (rt : runtime) (env : environ)
    (args : arguments) (w : world) (r : response) :
  400 <= status_code r < 600 ->
  (configuration_missing env args = false ->
   (forall rq,
      req_method rq = "GET" ->
      req_url rq = "https://api.setlist.fm/1.0/setlist/"
                   +:+ val (resolve_setlist_id args) ->
      net rt (net_calls w) rq = Replied r) ->
   exit_status (main rt env args w).1 = 1
   /\ (exists said, stdout (main rt env args w).2 = stdout w ++ said
                    /\ MsgCreated ∉ said)
   /\ (stdout_accepts rt (MsgFetching (val (resolve_setlist_id args))) = true ->
       let w1 := World (rng_pos w) (S (net_calls w))
                   (stdout w ++ [MsgFetching (val (resolve_setlist_id args))])
                   (stderr w) in
       fetch_setlist_by_id rt env (val (resolve_setlist_id args))
         (logged (MsgFetching (val (resolve_setlist_id args))) w)
       = (Raise (HTTPError (status_code r) (text r)), w1)
       /\ main rt env args w
          = (Raise (HTTPError (status_code r) (text r)), w1)))
  /\ (forall ids w0,
        collect_matched_ids rt env args w = (Ok ids, w0) ->
        (forall rq, req_method rq = "POST" ->
           net rt (net_calls w0) rq = Replied r) ->
        exit_status (main rt env args w).1 = 1
        /\ (exists said, stdout (main rt env args w).2 = stdout w0 ++ said
                         /\ MsgCreated ∉ said)
        /\ (stdout_accepts rt (MsgCreating (playlist_name args) (length ids))
            = true ->
            let w1 := World (rng_pos w0 + 8) (S (net_calls w0))
                        (stdout w0
                           ++ [MsgCreating (playlist_name args) (length ids)])
                        (stderr w0) in
            create_playlist rt env (val (NAV_BASE_URL env))
              (val (NAV_USERNAME env)) (val (NAV_PASSWORD env))
              (playlist_name args) ids
              (logged (MsgCreating (playlist_name args) (length ids)) w0)
            = (Raise (HTTPError (status_code r) (text r)), w1)
            /\ main rt env args w
               = (Raise (HTTPError (status_code r) (text r)), w1))).
Proof.
  intros Hstatus. apply error_status_raises in Hstatus. split.
  - intros Hcfg Hnet.
    set (id := val (resolve_setlist_id args)).
    set (w1 := World (rng_pos w) (S (net_calls w))
                 (stdout w ++ [MsgFetching id]) (stderr w)).
    assert (Hfetch :
      fetch_setlist_by_id rt env id (logged (MsgFetching id) w)
      = (Raise (HTTPError (status_code r) (text r)), w1)).
    { unfold fetch_setlist_by_id.
      pose proof Hcfg as Hcfg'. unfold configuration_missing in Hcfg'.
      apply orb_false_elim in Hcfg' as [Hcfg' _].
      apply orb_false_elim in Hcfg' as [_ ->].
      unfold bind, send. simpl net_calls.
      rewrite Hnet by reflexivity.
      unfold raise_for_status. by rewrite Hstatus. }
    assert (Hmain : main rt env args w
                    = if stdout_accepts rt (MsgFetching id)
                      then (Raise (HTTPError (status_code r) (text r)), w1)
                      else (Raise UnicodeEncodeError, w)).
    { rewrite main_run, (collect_configuration_present _ _ _ w Hcfg).
      cbv zeta. fold id. destruct (stdout_accepts rt (MsgFetching id));
        [by rewrite Hfetch | done]. }
    rewrite Hmain.
    destruct (stdout_accepts rt (MsgFetching id)); simpl.
    + split; [done|]. split; [|done].
      exists [MsgFetching id]. split; [done|].
      intros Hin. apply list_elem_of_singleton in Hin. discriminate.
    + split; [done|]. split; [|done].
      exists []. split; [by rewrite app_nil_r|]. apply not_elem_of_nil.
  - intros ids w0 Hcollect Hnet.
    set (notice := MsgCreating (playlist_name args) (length ids)).
    set (w1 := World (rng_pos w0 + 8) (S (net_calls w0))
                 (stdout w0 ++ [notice]) (stderr w0)).
    assert (Hcreate :
      create_playlist rt env (val (NAV_BASE_URL env))
        (val (NAV_USERNAME env)) (val (NAV_PASSWORD env))
        (playlist_name args) ids (logged notice w0)
      = (Raise (HTTPError (status_code r) (text r)), w1)).
    { unfold create_playlist, bind. rewrite subsonic_params_run.
      unfold send. simpl net_calls.
      rewrite Hnet by reflexivity.
      unfold raise_for_status. by rewrite Hstatus. }
    assert (Hmain : main rt env args w
                    = if stdout_accepts rt notice
                      then (Raise (HTTPError (status_code r) (text r)), w1)
                      else (Raise UnicodeEncodeError, w0)).
    { rewrite main_run, Hcollect, publish_run. cbv zeta. fold notice.
      destruct (stdout_accepts rt notice); [by rewrite Hcreate | done]. }
    rewrite Hmain.
    destruct (stdout_accepts rt notice); simpl.
    + split; [done|]. split; [|done].
      exists [notice]. split; [done|].
      intros Hin. apply list_elem_of_singleton in Hin. discriminate.
    + split; [done|]. split; [|done].
      exists []. split; [by rewrite app_nil_r|]. apply not_elem_of_nil.
Qed.

Lemma error_status_terminates_run_witness :
  400 <= status_code (Response 500 "setlist") < 600
  /\ main (failing_fetch_runtime 500) sample_environ (sample_arguments 200)
       initial_world
     = (Raise (HTTPError 500 "setlist"), World 0 1 [MsgFetching "7bd6f1ac"] []).
Proof.
  assert (H : 400 <= status_code (Response 500 "setlist") < 600)
    by (split; [intros H; discriminate H | reflexivity]).
  split; [exact H|].
  refine (proj2 (proj2 (proj2 (proj1 (error_status_terminates_run
            (failing_fetch_runtime 500) sample_environ (sample_arguments 200)
            initial_world (Response 500 "setlist") H) eq_refl _)) eq_refl)).
  intros rq Hget Hurl. simpl.
  rewrite Hget, Hurl. reflexivity.
Defined.

(** * Bounds on the matched list *)

Lemma py_slice_to_length_le {A} (l : list A) (n : Z) :
  (length (py_slice_to l n) <= length l)%nat.
Proof. unfold py_slice_to. destruct (0 <=? n); rewrite length_take; lia. Qed.

(** C10, as stated, fails for a negative cap: with [--max-songs -1] and three
    titles that all match, two identifiers are matched, which is more than
    the cap. *)
Lemma matched_list_exceeds_negative_cap :
  (collect_matched_ids (sample_runtime 200) sample_environ
     (sample_arguments (-1)) initial_world).1
  = Ok ["id1"; "id1"]
  /\ ~ (Z.of_nat (length ["id1"; "id1"]) <= max_songs (sample_arguments (-1))).
Proof. split; [by vm_compute|]. simpl. lia. Qed.

Lemma bounded_by_titles_and_cap (rt : runtime) (env : environ)
    (args : arguments) (js : json) (songs : list json) (w w' : world)
    (ids : list string) :
  match_titles rt env args js (py_slice_to songs (max_songs args)) [] w
  = (Ok ids, w') ->
  (length ids <= length songs)%nat
  /\ (0 <= max_songs args -> Z.of_nat (length ids) <= max_songs args).
Proof.
  intros H. apply match_titles_length in H.
  pose proof (py_slice_to_length_le songs (max_songs args)).
  split; [lia|]. intros Hcap.
  pose proof (truncation_length_nonneg songs (max_songs args) Hcap). lia.
Qed.

(** C10, amended. Whatever the searches return, the list the matching loop
    builds from the truncated titles is no longer than the title sequence
    and, when the configured cap is not negative, no longer than the cap. In
    every run that reaches publishing, the matched list is therefore no
    longer than the sequence of titles extracted from the document the run
    fetched and, for a cap that is not negative, no longer than the cap. *)
Theorem matched_list_bounds (rt : runtime) (env : environ)
    (args : arguments) :
  (forall js songs w ids w',
     match_titles rt env args js (py_slice_to songs (max_songs args)) [] w
     = (Ok ids, w') ->
     (length ids <= length songs)%nat
     /\ (0 <= max_songs args -> Z.of_nat (length ids) <= max_songs args))
  /\ (forall w ids w',
        collect_matched_ids rt env args w = (Ok ids, w') ->
        exists js w1 songs,
          fetch_setlist_by_id rt env (val (resolve_setlist_id args))
            (logged (MsgFetching (val (resolve_setlist_id args))) w)
          = (Ok js, w1)
          /\ parse_songs_from_setlist js = Ok songs
          /\ (length ids <= length songs)%nat
          /\ (0 <= max_songs args ->
              Z.of_nat (length ids) <= max_songs args)).
Proof.
  split.
  - intros js songs w ids w'. apply bounded_by_titles_and_cap.
  - intros w ids w' Hrun.
    destruct (collect_matched_ids_ok rt env args w w' ids Hrun)
      as (js & w1 & songs & _ & _ & Hfetch & Hparse & _ & Hloop & _).
    exists js, w1, songs. split; [done|]. split; [done|].
    exact (bounded_by_titles_and_cap rt env args js songs _ w' ids Hloop).
Qed.

Lemma matched_list_bounds_witness :
  collect_matched_ids (sample_runtime 200) sample_environ (sample_arguments 2)
    initial_world
  = (Ok ["id1"; "id1"],
     World 16 3
       [MsgFetching "7bd6f1ac"; MsgFound 2;
        MsgMatched (JStr "A") (Some "Encore") "id1";
        MsgMatched (JStr "B") (Some "Encore") "id1"] [])
  /\ exists js w1 songs,
       fetch_setlist_by_id (sample_runtime 200) sample_environ "7bd6f1ac"
         (logged (MsgFetching "7bd6f1ac") initial_world) = (Ok js, w1)
       /\ parse_songs_from_setlist js = Ok songs
       /\ (length ["id1"; "id1"] <= length songs)%nat.
Proof.
  assert (H : collect_matched_ids (sample_runtime 200) sample_environ
                (sample_arguments 2) initial_world
              = (Ok ["id1"; "id1"],
                 World 16 3
                   [MsgFetching "7bd6f1ac"; MsgFound 2;
                    MsgMatched (JStr "A") (Some "Encore") "id1";
                    MsgMatched (JStr "B") (Some "Encore") "id1"] []))
    by (vm_compute; reflexivity).
  split; [exact H|].
  destruct (proj2 (matched_list_bounds (sample_runtime 200) sample_environ
                     (sample_arguments 2)) _ _ _ H)
    as (js & w1 & songs & Hf & Hp & Hl & _).
  exists js, w1, songs. split; [exact Hf|]. split; [exact Hp | exact Hl].
Defined.

(** * Further properties of the helpers *)

Lemma for_each_invariant {A S} (P : S -> Prop) (body : S -> A -> result S)
    (l : list A) (acc r : S) :
  (forall acc x acc', P acc -> body acc x = Ok acc' -> P acc') ->
  P acc -> Res.for_each body l acc = Ok r -> P r.
Proof.
  intros Hbody. revert acc. induction l as [|x l IH]; intros acc Hacc; simpl.
  - by intros [= <-].
  - destruct (body acc x) as [acc'|e] eqn:E; simpl; [|discriminate].
    apply IH. by apply (Hbody acc x).
Qed.

Lemma for_each_raises {A S} (P : exn -> Prop) (body : S -> A -> result S)
    (l : list A) (acc : S) (e : exn) :
  (forall acc x e, body acc x = Raise e -> P e) ->
  Res.for_each body l acc = Raise e -> P e.
Proof.
  intros Hbody. revert acc. induction l as [|x l IH]; intros acc; simpl.
  - discriminate.
  - destruct (body acc x) as [acc'|e'] eqn:E; simpl.
    + apply IH.
    + intros [= <-]. by apply (Hbody _ _ _ E).
Qed.

Lemma py_iter_raises (x : json) (e : exn) : py_iter x = Raise e -> e = TypeError.
Proof. destruct x; simpl; congruence. Qed.

Lemma py_get_raises (x : json) (k : string) (d : json) (e : exn) :
  py_get x k d = Raise e -> e = AttributeError.
Proof. destruct x; simpl; congruence. Qed.

(** X1. Whatever the document looks like, [parse_songs_from_setlist] either
    returns titles that are all true values (none is empty, null, zero or
    false), or raises [AttributeError] (a [get] on something that is not a
    dictionary) or [TypeError] (a loop over something that is not iterable);
    a text title is true exactly when it is not the empty string. *)
Theorem parse_songs_only_true_titles (doc : json) :
  match parse_songs_from_setlist doc with
  | Ok titles => Forall (fun t => truthy t = true) titles
  | Raise e => e = AttributeError \/ e = TypeError
  end
  /\ (forall s, truthy (JStr s) = true <-> s <> "").
Proof.
  split.
  - destruct (parse_songs_from_setlist doc) as [titles|e] eqn:Hparse.
    + revert Hparse. unfold parse_songs_from_setlist.
      destruct (py_get doc "sets" (JObj [])) as [sets|?]; simpl; [|done].
      destruct (py_get sets "set" (JArr [])) as [set_|?]; simpl; [|done].
      destruct (py_iter (py_or set_ (JArr []))) as [outer|?]; simpl; [|done].
      apply for_each_invariant; [|by constructor].
      intros acc s acc' Hacc.
      destruct (py_get s "song" (JArr [])) as [song_|?]; simpl; [|done].
      destruct (py_iter (py_or song_ (JArr []))) as [inner|?]; simpl; [|done].
      apply for_each_invariant; [|done].
      intros acc1 song acc2 Hacc1.
      destruct (py_get song "name" JNull) as [title|?]; simpl; [|done].
      destruct (truthy title) eqn:Ht; intros [= <-]; [|done].
      apply Forall_app. split; [done|]. by repeat constructor.
    + revert Hparse. unfold parse_songs_from_setlist.
      destruct (py_get doc "sets" (JObj [])) as [sets|e1] eqn:E1; simpl;
        [|intros [= <-]; left; by apply (py_get_raises _ _ _ _ E1)].
      destruct (py_get sets "set" (JArr [])) as [set_|e2] eqn:E2; simpl;
        [|intros [= <-]; left; by apply (py_get_raises _ _ _ _ E2)].
      destruct (py_iter (py_or set_ (JArr []))) as [outer|e3] eqn:E3; simpl;
        [|intros [= <-]; right; by apply (py_iter_raises _ _ E3)].
      apply (for_each_raises (fun e => e = AttributeError \/ e = TypeError)).
      intros acc s e'.
      destruct (py_get s "song" (JArr [])) as [song_|e4] eqn:E4; simpl;
        [|intros [= <-]; left; by apply (py_get_raises _ _ _ _ E4)].
      destruct (py_iter (py_or song_ (JArr []))) as [inner|e5] eqn:E5; simpl;
        [|intros [= <-]; right; by apply (py_iter_raises _ _ E5)].
      apply (for_each_raises (fun e => e = AttributeError \/ e = TypeError)).
      intros acc' song e''.
      destruct (py_get song "name" JNull) as [title|e6] eqn:E6; simpl;
        [|intros [= <-]; left; by apply (py_get_raises _ _ _ _ E6)].
      destruct (truthy title); discriminate.
  - intros s. simpl. rewrite negb_true_iff, bool_decide_eq_false. done.
Qed.

(** X2. Truncation keeps a prefix of the titles: nothing is reordered or
    invented. Its length is [min(n, len)] for [n >= 0] and [max(0, len + n)]
    for a negative [n] (the last [-n] titles are dropped); a cap of at least
    the number of titles leaves them all. *)
Theorem truncation_is_prefix {A} (songs : list A) (n : Z) :
  py_slice_to songs n `prefix_of` songs
  /\ Z.of_nat (length (py_slice_to songs n))
     = (if 0 <=? n then Z.min n (Z.of_nat (length songs))
        else Z.max 0 (Z.of_nat (length songs) + n))
  /\ (Z.of_nat (length songs) <= n -> py_slice_to songs n = songs).
Proof.
  unfold py_slice_to. split; [|split].
  - destruct (0 <=? n); apply prefix_take.
  - destruct (Z.leb_spec 0 n); rewrite length_take; lia.
  - intros Hn. destruct (Z.leb_spec 0 n); [|lia].
    apply take_ge. lia.
Qed.

Lemma filter_either_tag (P Q : element -> Prop)
    `{!forall e, Decision (P e)} `{!forall e, Decision (Q e)}
    (l : list element) :
  (forall e, P e -> Q e -> False) ->
  filter P l ++ filter Q l ≡ₚ filter (fun e => P e \/ Q e) l.
Proof.
  intros Hdisj. induction l as [|e l IH]; [done|].
  destruct (decide (P e)) as [HP|HP]; destruct (decide (Q e)) as [HQ|HQ].
  - destruct (Hdisj e HP HQ).
  - rewrite (filter_cons_True P) by done.
    rewrite (filter_cons_False Q) by done.
    rewrite (filter_cons_True (fun e => P e \/ Q e)) by auto.
    simpl. by rewrite IH.
  - rewrite (filter_cons_False P) by done.
    rewrite (filter_cons_True Q) by done.
    rewrite (filter_cons_True (fun e => P e \/ Q e)) by auto.
    rewrite <- Permutation_middle. by rewrite IH.
  - rewrite (filter_cons_False P) by done.
    rewrite (filter_cons_False Q) by done.
    rewrite (filter_cons_False (fun e => P e \/ Q e)) by tauto.
    exact IH.
Qed.

Lemma filter_or_none_r (P Q : element -> Prop)
    `{!forall e, Decision (P e)} `{!forall e, Decision (Q e)}
    (l : list element) :
  filter Q l = [] -> filter (fun e => P e \/ Q e) l = filter P l.
Proof.
  induction l as [|e l IH]; [done|].
  destruct (decide (Q e)) as [HQ|HQ].
  { rewrite (filter_cons_True Q) by done. discriminate. }
  rewrite (filter_cons_False Q) by done. intros Hnone.
  destruct (decide (P e)) as [HP|HP].
  - rewrite (filter_cons_True P) by done.
    rewrite (filter_cons_True (fun e => P e \/ Q e)) by auto.
    by rewrite IH.
  - rewrite (filter_cons_False P) by done.
    rewrite (filter_cons_False (fun e => P e \/ Q e)) by tauto.
    by apply IH.
Qed.

Lemma filter_or_none_l (P Q : element -> Prop)
    `{!forall e, Decision (P e)} `{!forall e, Decision (Q e)}
    (l : list element) :
  filter P l = [] -> filter (fun e => P e \/ Q e) l = filter Q l.
Proof.
  induction l as [|e l IH]; [done|].
  destruct (decide (P e)) as [HP|HP].
  { rewrite (filter_cons_True P) by done. discriminate. }
  rewrite (filter_cons_False P) by done. intros Hnone.
  destruct (decide (Q e)) as [HQ|HQ].
  - rewrite (filter_cons_True Q) by done.
    rewrite (filter_cons_True (fun e => P e \/ Q e)) by auto.
    by rewrite IH.
  - rewrite (filter_cons_False Q) by done.
    rewrite (filter_cons_False (fun e => P e \/ Q e)) by tauto.
    by apply IH.
Qed.

Lemma candidate_of_id (song : element) (c : candidate) :
  candidate_of song = Some c -> c.1 <> "" /\ attrib_of song !! "id" = Some c.1.
Proof.
  unfold candidate_of. destruct (attrib_of song !! "id") as [i|]; [|done].
  destruct (bool_decide (i = "")) eqn:E; [done|].
  intros [= <-]. simpl. by apply bool_decide_eq_false in E.
Qed.

Lemma song_candidates_ids (root : element) :
  Forall (fun c : candidate => c.1 <> "") (song_candidates root).
Proof.
  unfold song_candidates. rewrite candidates_loop. simpl.
  apply Forall_forall. intros c Hc.
  apply list_elem_of_omap in Hc as (song & _ & Hsong).
  apply candidate_of_id in Hsong. tauto.
Qed.

(** X3. The extraction raises [ParseError] exactly when the response does
    not parse, and nothing else. When it parses, every candidate carries a
    non-empty identifier, and the candidates are the document-order
    candidates of all song entries (qualified or not) up to order: no entry
    is lost or counted twice, and the order is the document order whenever
    the response has no unqualified song entry or no qualified one. *)
Theorem extract_song_ids_complete (rt : runtime) (xml_text : string)
    (title : json) :
  match ET_fromstring rt xml_text with
  | None => extract_song_ids_from_search_xml rt xml_text title = Raise ParseError
  | Some root =>
      let in_document_order :=
        omap candidate_of
          (filter (fun e => tag_of e = "{http://subsonic.org/restapi}song"
                            \/ tag_of e = "song") (descendants root)) in
      exists cands,
        extract_song_ids_from_search_xml rt xml_text title = Ok cands
        /\ Forall (fun c : candidate => c.1 <> "") cands
        /\ cands ≡ₚ in_document_order
        /\ (filter (fun e => tag_of e = "song") (descendants root) = []
            \/ filter (fun e => tag_of e = "{http://subsonic.org/restapi}song")
                 (descendants root) = []
            -> cands = in_document_order)
  end.
Proof.
  unfold extract_song_ids_from_search_xml.
  destruct (ET_fromstring rt xml_text) as [root|]; [|done].
  cbv zeta. exists (song_candidates root).
  split; [reflexivity|]. split; [apply song_candidates_ids|].
  assert (Hdisj : forall e : element,
            tag_of e = "{http://subsonic.org/restapi}song" ->
            tag_of e = "song" -> False) by (intros e -> [=]).
  unfold song_candidates, findall_descendants. rewrite candidates_loop. simpl.
  split.
  - by rewrite <- (filter_either_tag _ _ _ Hdisj).
  - intros [Hnone|Hnone]; rewrite Hnone.
    + by rewrite app_nil_r, (filter_or_none_r _ _ _ Hnone).
    + by rewrite (filter_or_none_l _ _ _ Hnone).
Qed.

(** * The requests the script sends *)

Lemma app_char_cancel (s t : string) (c : ascii) :
  s +:+ String c "" = t +:+ String c "" -> s = t.
Proof.
  revert t. induction s as [|a s IH]; intros [|b t]; simpl.
  - done.
  - intros [= _ H]. by destruct t.
  - intros [= _ H]. by destruct s.
  - intros [= -> H]. f_equal. by apply IH.
Qed.

Lemma song_key_inj (x y : string) :
  "songId[" +:+ x +:+ "]" = "songId[" +:+ y +:+ "]" -> x = y.
Proof. simpl. intros [= H]. by apply app_char_cancel in H. Qed.

Lemma song_key_pretty_inj (i j : nat) :
  "songId[" +:+ pretty i +:+ "]" = "songId[" +:+ pretty j +:+ "]" -> i = j.
Proof. intros H. apply song_key_inj in H. by apply (inj pretty) in H. Qed.

Lemma add_song_ids_other (i0 : nat) (ids : list string)
    (params : gmap string string) (key : string) :
  (forall x, key <> "songId[" +:+ x +:+ "]") ->
  add_song_ids i0 ids params !! key = params !! key.
Proof.
  intros Hkey. revert i0 params.
  induction ids as [|sid ids IH]; intros i0 params; simpl; [done|].
  rewrite IH. apply lookup_insert_ne. intros H. by apply (Hkey (pretty i0)).
Qed.

Lemma add_song_ids_before (i0 k : nat) (ids : list string)
    (params : gmap string string) :
  (k < i0)%nat ->
  add_song_ids i0 ids params !! ("songId[" +:+ pretty k +:+ "]")
  = params !! ("songId[" +:+ pretty k +:+ "]").
Proof.
  revert i0 params.
  induction ids as [|sid ids IH]; intros i0 params Hk; simpl; [done|].
  rewrite IH by lia. apply lookup_insert_ne.
  intros H. apply song_key_pretty_inj in H. lia.
Qed.

Lemma add_song_ids_lookup (i0 k : nat) (ids : list string)
    (params : gmap string string) :
  (forall j, (i0 <= j)%nat ->
     params !! ("songId[" +:+ pretty j +:+ "]") = None) ->
  add_song_ids i0 ids params !! ("songId[" +:+ pretty (i0 + k)%nat +:+ "]")
  = ids !! k.
Proof.
  revert i0 k params.
  induction ids as [|sid ids IH]; intros i0 k params Hfree; simpl.
  - by rewrite Hfree by lia.
  - destruct k as [|k].
    + rewrite Nat.add_0_r, add_song_ids_before by lia.
      apply lookup_insert_eq.
    + replace (i0 + S k)%nat with (S i0 + k)%nat by lia.
      apply IH. intros j Hj. rewrite lookup_insert_ne.
      * apply Hfree. lia.
      * intros H. apply song_key_pretty_inj in H. lia.
Qed.

Lemma add_song_ids_size (i0 : nat) (ids : list string)
    (params : gmap string string) :
  (forall j, (i0 <= j)%nat ->
     params !! ("songId[" +:+ pretty j +:+ "]") = None) ->
  size (add_song_ids i0 ids params) = (size params + length ids)%nat.
Proof.
  revert i0 params.
  induction ids as [|sid ids IH]; intros i0 params Hfree; simpl; [lia|].
  rewrite IH.
  - rewrite map_size_insert_None by (apply Hfree; lia). lia.
  - intros j Hj. rewrite lookup_insert_ne.
    + apply Hfree. lia.
    + intros H. apply song_key_pretty_inj in H. lia.
Qed.

Lemma create_playlist_sends (rt : runtime) (env : environ)
    (base_url username password playlist_name : string)
    (song_ids : list string) (w : world) :
  exists rq,
    req_method rq = "POST"
    /\ req_url rq = urljoin rt base_url "/rest/createPlaylist.view"
    /\ req_timeout rq = 30
    /\ req_headers rq = ∅
    /\ (forall i, req_params rq !! ("songId[" +:+ pretty i +:+ "]")
                  = JStr <$> song_ids !! i)
    /\ req_params rq !! "name" = Some (JStr playlist_name)
    /\ req_params rq !! "u" = Some (JStr username)
    /\ req_params rq !! "s" = Some (JStr (salt_at rt (rng_pos w) 8))
    /\ req_params rq !! "t"
       = Some (JStr (md5hex rt (password +:+ salt_at rt (rng_pos w) 8)))
    /\ req_params rq !! "v" = Some (JStr "1.16.1")
    /\ req_params rq !! "c" = Some (JStr (CLIENT_ID env))
    /\ size (req_params rq) = (6 + length song_ids)%nat
    /\ create_playlist rt env base_url username password playlist_name
         song_ids w
       = let w' := World (rng_pos w + 8) (S (net_calls w)) (stdout w)
                     (stderr w) in
         match net rt (net_calls w) rq with
         | Failed msg => (Raise (RequestException msg), w')
         | Replied r =>
             if (400 <=? status_code r) && (status_code r <? 600)
             then (Raise (HTTPError (status_code r) (text r)), w')
             else (Ok r, w')
         end.
Proof.
  exists (Request "POST" (urljoin rt base_url "/rest/createPlaylist.view") ∅
            (JStr <$> add_song_ids 0 song_ids
               (<["name" := playlist_name]>
                  (<["u" := username]>
                     (<["t" := md5hex rt
                                 (password +:+ salt_at rt (rng_pos w) 8)]>
                        (<["s" := salt_at rt (rng_pos w) 8]>
                           (<["v" := "1.16.1"]>
                              (<["c" := CLIENT_ID env]> ∅)))))))
            30).
  cbn [req_method req_url req_headers req_params req_timeout].
  split; [reflexivity|]. split; [reflexivity|]. split; [reflexivity|].
  split; [reflexivity|].
  assert (Hfree : forall j : nat, (0 <= j)%nat ->
    (<["name" := playlist_name]>
       (<["u" := username]>
          (<["t" := md5hex rt (password +:+ salt_at rt (rng_pos w) 8)]>
             (<["s" := salt_at rt (rng_pos w) 8]>
                (<["v" := "1.16.1"]>
                   (<["c" := CLIENT_ID env]> (∅ : gmap string string)))))))
      !! ("songId[" +:+ pretty j +:+ "]") = None).
  { intros j _.
    repeat (rewrite lookup_insert_ne by (simpl; discriminate)).
    apply lookup_empty. }
  split; [intros i; rewrite lookup_fmap;
          by rewrite (add_song_ids_lookup 0 i _ _ Hfree)|].
  do 6 (split; [rewrite lookup_fmap,
                  add_song_ids_other by (intros x; simpl; discriminate);
                by lookup_param|]).
  split.
  { rewrite map_size_fmap, (add_song_ids_size 0 _ _ Hfree).
    repeat (rewrite map_size_insert_None;
            [|repeat (rewrite lookup_insert_ne by discriminate);
              apply lookup_empty]).
    rewrite map_size_empty. lia. }
  unfold create_playlist, bind. rewrite subsonic_params_run.
  unfold send. simpl.
  destruct (net rt (net_calls w) _) as [r|msg]; [|done].
  unfold raise_for_status. by destruct (_ && _).
Qed.




Lemma fetch_setlist_sends (rt : runtime) (env : environ)
    (setlist_id : string) (w : world) :
  (falsy (SETLISTFM_API_KEY env) = true ->
   exists msg, fetch_setlist_by_id rt env setlist_id w
               = (Raise (RuntimeError msg), w))
  /\ (falsy (SETLISTFM_API_KEY env) = false ->
      exists rq,
        req_method rq = "GET"
        /\ req_url rq = "https://api.setlist.fm/1.0/setlist/" +:+ setlist_id
        /\ req_headers rq !! "x-api-key" = SETLISTFM_API_KEY env
        /\ req_headers rq !! "Accept" = Some "application/json"
        /\ size (req_headers rq) = 2%nat
        /\ req_params rq = ∅
        /\ req_timeout rq = 20
        /\ (fetch_setlist_by_id rt env setlist_id w).2
           = World (rng_pos w) (S (net_calls w)) (stdout w) (stderr w)
        /\ (forall js,
              (fetch_setlist_by_id rt env setlist_id w).1 = Ok js
              <-> exists r,
                    net rt (net_calls w) rq = Replied r
                    /\ ~ (400 <= status_code r < 600)
                    /\ json_loads rt (text r) = Some js)).
Proof.
  split.
  - intros Hkey. unfold fetch_setlist_by_id. rewrite Hkey. by eexists.
  - intros Hkey.
    exists (Request "GET" ("https://api.setlist.fm/1.0/setlist/" +:+ setlist_id)
              (<["x-api-key" := val (SETLISTFM_API_KEY env)]>
                 (<["Accept" := "application/json"]> ∅)) ∅ 20).
    cbn [req_method req_url req_headers req_params req_timeout].
    split; [reflexivity|]. split; [reflexivity|].
    split.
    { rewrite lookup_insert_eq.
      destruct (SETLISTFM_API_KEY env); [done|discriminate]. }
    split; [by lookup_param|].
    split.
    { repeat (rewrite map_size_insert_None;
              [|repeat (rewrite lookup_insert_ne by discriminate);
                apply lookup_empty]).
      by rewrite map_size_empty. }
    split; [reflexivity|]. split; [reflexivity|].
    unfold fetch_setlist_by_id. rewrite Hkey. unfold bind, send.
    destruct (net rt (net_calls w) _) as [r|msg]; simpl.
    2:{ split; [done|]. intros js. split; [done|]. by intros (r & [=] & _). }
    unfold raise_for_status.
    destruct ((400 <=? status_code r) && (status_code r <? 600)) eqn:Hst;
      simpl.
    + split; [done|]. intros js. split; [done|].
      intros (r' & [= <-] & Hok & _). destruct Hok.
      apply andb_prop in Hst as [H1 H2].
      split; [by apply Z.leb_le | by apply Z.ltb_lt].
    + assert (Hok : ~ (400 <= status_code r < 600)).
      { intros Herr. apply error_status_raises in Herr. congruence. }
      unfold response_json.
      destruct (json_loads rt (text r)) as [js'|] eqn:Hjs; simpl.
      * split; [done|]. intros js. split.
        -- intros [= <-]. by exists r.
        -- intros (r' & [= <-] & _ & Hjs'). congruence.
      * split; [done|]. intros js. split; [done|].
        intros (r' & [= <-] & _ & Hjs'). congruence.
Qed.

(** X6. Without an API key [fetch_setlist_by_id] raises [RuntimeError]
    before any request is made. With a key it sends exactly one GET for the
    setlist, carrying the key in the x-api-key header and asking for JSON,
    with a 20 second timeout; it returns a document exactly when a response
    arrives whose status is outside 400-599 and whose body parses, and that
    document is the parsed body. It draws nothing and prints nothing. *)
Theorem fetch_setlist_outcomes (rt : runtime) (env : environ)
    (setlist_id : string) (w : world) :
  (falsy (SETLISTFM_API_KEY env) = true ->
   exists msg, fetch_setlist_by_id rt env setlist_id w
               = (Raise (RuntimeError msg), w))
  /\ (falsy (SETLISTFM_API_KEY env) = false ->
      exists rq,
        req_method rq = "GET"
        /\ req_url rq = "https://api.setlist.fm/1.0/setlist/" +:+ setlist_id
        /\ req_headers rq !! "x-api-key" = SETLISTFM_API_KEY env
        /\ req_headers rq !! "Accept" = Some "application/json"
        /\ size (req_headers rq) = 2%nat
        /\ req_params rq = ∅
        /\ req_timeout rq = 20
        /\ (fetch_setlist_by_id rt env setlist_id w).2
           = World (rng_pos w) (S (net_calls w)) (stdout w) (stderr w)
        /\ (forall js,
              (fetch_setlist_by_id rt env setlist_id w).1 = Ok js
              <-> exists r,
                    net rt (net_calls w) rq = Replied r
                    /\ ~ (400 <= status_code r < 600)
                    /\ json_loads rt (text r) = Some js)).
Proof. apply fetch_setlist_sends. Qed.

Lemma fetch_setlist_outcomes_witness :
  falsy (SETLISTFM_API_KEY sample_environ) = false
  /\ (fetch_setlist_by_id (sample_runtime 200) sample_environ "7bd6f1ac"
        initial_world).2
     = World 0 1 [] [].
Proof.
  split; [reflexivity|].
  destruct (proj2 (fetch_setlist_outcomes (sample_runtime 200) sample_environ
                     "7bd6f1ac" initial_world) eq_refl)
    as (rq & _ & _ & _ & _ & _ & _ & _ & Hworld & _).
  exact Hworld.
Defined.

(** * What a run consumes and prints *)

Section Accounting.
Variable rt : runtime.
Variable env : environ.
Variable args : arguments.
Variable js : json.



Lemma match_title_without_hint (e : exn) (matched_ids : list string)
    (title : json) (w : world) :
  artist_hint args js = Raise e ->
  match_title rt env args js matched_ids title w
  = if stdout_accepts rt (MsgSearchError title AttributeError)
    then (Ok matched_ids, logged (MsgSearchError title AttributeError) w)
    else (Raise UnicodeEncodeError, w).
Proof.
  intros Hhint. rewrite (artist_hint_exception _ _ _ Hhint) in Hhint.
  unfold match_title, attempt. unfold bind at 1.
  unfold lookup_candidates, bind, lift. rewrite Hhint. simpl.
  unfold search_failed, bind, print, ret.
  by destruct (stdout_accepts rt (MsgSearchError title AttributeError)).
Qed.



(** Without a hint no iteration sends or draws anything. *)
Lemma loop_without_hint_quiet (e : exn) (songs : list json)
    (matched_ids : list string) (w : world) :
  artist_hint args js = Raise e ->
  rng_pos (match_titles rt env args js songs matched_ids w).2 = rng_pos w
  /\ net_calls (match_titles rt env args js songs matched_ids w).2
     = net_calls w
  /\ stderr (match_titles rt env args js songs matched_ids w).2 = stderr w.
Proof.
  intros Hhint. revert w.
  induction songs as [|title rest IH]; intros w; simpl; [done|].
  unfold bind. rewrite (match_title_without_hint e) by done.
  destruct (stdout_accepts rt (MsgSearchError title AttributeError));
    [|done].
  destruct (IH (logged (MsgSearchError title AttributeError) w))
    as (H1 & H2 & H3).
  by rewrite H1, H2, H3.
Qed.

Lemma loop_without_hint (e : exn) (songs : list json)
    (matched_ids : list string) (w : world) :
  artist_hint args js = Raise e ->
  (forall title, title ∈ songs ->
     stdout_accepts rt (MsgSearchError title AttributeError) = true) ->
  match_titles rt env args js songs matched_ids w
  = (Ok matched_ids,
     World (rng_pos w) (net_calls w)
       (stdout w ++ ((fun t => MsgSearchError t AttributeError) <$> songs))
       (stderr w)).
Proof.
  intros Hhint. revert w.
  induction songs as [|title rest IH]; intros w Hacc; simpl.
  - unfold ret. destruct w; simpl. by rewrite app_nil_r.
  - unfold bind. rewrite (match_title_without_hint e) by done.
    rewrite Hacc by (by left).
    rewrite IH by (intros t Ht; apply Hacc; by right).
    simpl. by rewrite <- app_assoc.
Qed.

(** The identifiers a lookup returns are never empty. *)
Lemma lookup_candidates_ids (title : json) (w w' : world)
    (cands : list candidate) :
  lookup_candidates rt env args js title w = (Ok cands, w') ->
  Forall (fun c : candidate => c.1 <> "") cands.
Proof.
  unfold lookup_candidates, bind, lift.
  destruct (artist_hint args js) as [hint|]; [|discriminate].
  destruct (search_song _ _ _ _ _ _ _ _ _) as [[xml|] w1]; [|discriminate].
  unfold extract_song_ids_from_search_xml.
  destruct (ET_fromstring rt xml) as [root|]; [|discriminate].
  intros [= <- _]. apply song_candidates_ids.
Qed.

Lemma title_outcomes_ids (songs : list json) (w : world) :
  Forall (fun i : string => i <> "")
    (omap first_id (title_outcomes rt env args js songs w)).
Proof.
  apply Forall_forall. intros i Hi.
  apply list_elem_of_omap in Hi as (o & Ho & Hfirst).
  unfold title_outcomes in Ho.
  apply elem_of_zip_with in Ho as (title & w0 & -> & _ & _).
  destruct (lookup_candidates rt env args js title w0) as [[cands|e] w1] eqn:E;
    simpl in Hfirst; [|done].
  apply lookup_candidates_ids in E.
  destruct cands as [|[chosen_id name] rest]; [done|].
  injection Hfirst as <-. by inversion E.
Qed.
End Accounting.



(** X8. When no [--artist] is given and the document's artist member is
    present but not a dictionary (or the document is not a dictionary), the
    hint cannot be computed: every title then fails with [AttributeError]
    before any request is sent or any salt is drawn. When standard output
    accepts the error line of every title, one error line is printed per
    title and the loop returns the matched list unchanged. *)
Theorem broken_artist_member_fails_every_title (rt : runtime) (env : environ)
    (args : arguments) (js : json) (songs : list json)
    (matched_ids : list string) (w : world) :
  falsy (artist args) = true ->
  (forall fields, js = JObj fields ->
     exists a, assoc "artist" fields = Some a
               /\ forall members, a <> JObj members) ->
  artist_hint args js = Raise AttributeError
  /\ rng_pos (match_titles rt env args js songs matched_ids w).2 = rng_pos w
  /\ net_calls (match_titles rt env args js songs matched_ids w).2
     = net_calls w
  /\ ((forall title, title ∈ songs ->
         stdout_accepts rt (MsgSearchError title AttributeError) = true) ->
      match_titles rt env args js songs matched_ids w
      = (Ok matched_ids,
         World (rng_pos w) (net_calls w)
           (stdout w ++ ((fun t => MsgSearchError t AttributeError) <$> songs))
           (stderr w))).
Proof.
  intros Hartist Hjs.
  assert (Hhint : artist_hint args js = Raise AttributeError).
  { unfold artist_hint. rewrite Hartist.
    destruct js as [| | | | |fields]; try done.
    destruct (Hjs fields eq_refl) as (a & Ha & Hnot). simpl. rewrite Ha. simpl.
    destruct a; try done. by destruct (Hnot fields0). }
  split; [exact Hhint|].
  destruct (loop_without_hint_quiet rt env args js AttributeError songs
              matched_ids w Hhint) as (H1 & H2 & _).
  split; [exact H1|]. split; [exact H2|].
  by apply (loop_without_hint rt env args js AttributeError).
Qed.

Lemma broken_artist_member_fails_every_title_witness :
  falsy (artist (sample_arguments 200)) = true
  /\ match_titles (sample_runtime 200) sample_environ (sample_arguments 200)
       (JObj [("artist", JStr "Band")]) [JStr "A"; JStr "B"] [] initial_world
     = (Ok [],
        World 0 0
          [MsgSearchError (JStr "A") AttributeError;
           MsgSearchError (JStr "B") AttributeError] []).
Proof.
  split; [reflexivity|].
  refine (proj2 (proj2 (proj2 (broken_artist_member_fails_every_title
                   (sample_runtime 200)
                   sample_environ (sample_arguments 200)
                   (JObj [("artist", JStr "Band")]) [JStr "A"; JStr "B"] []
                   initial_world eq_refl _))) _).
  - intros fields [= <-]. exists (JStr "Band"). split; [reflexivity|].
    intros members H. discriminate H.
  - intros title Htitle. reflexivity.
Defined.

Lemma configuration_missing_run (rt : runtime) (env : environ)
    (args : arguments) (w : world) :
  configuration_missing env args = true ->
  exists m,
    main rt env args w
    = (Raise (SystemExit 2),
       World (rng_pos w) (net_calls w) (stdout w) (stderr w ++ [m]))
    /\ (m = MsgNavConfigMissing \/ m = MsgApiKeyMissing \/ m = MsgNoSetlistId).
Proof.
  intros Hcfg. rewrite main_run.
  unfold configuration_missing in Hcfg. unfold collect_matched_ids.
  destruct (falsy (NAV_BASE_URL env) || falsy (NAV_USERNAME env)
            || falsy (NAV_PASSWORD env)) eqn:E1; [eexists; eauto|].
  destruct (falsy (SETLISTFM_API_KEY env)) eqn:E2; [eexists; eauto|].
  simpl in Hcfg. rewrite Hcfg. eexists; eauto.
Qed.

(** X9. With a configuration value or the setlist id missing, [main] stops
    at once: it sends no request, draws nothing, prints nothing on standard
    output, writes exactly one diagnostic to standard error and leaves
    through [sys.exit(2)]. *)
Theorem missing_configuration_sends_nothing (rt : runtime) (env : environ)
    (args : arguments) (w : world) :
  configuration_missing env args = true ->
  exists m,
    main rt env args w
    = (Raise (SystemExit 2),
       World (rng_pos w) (net_calls w) (stdout w) (stderr w ++ [m]))
    /\ (m = MsgNavConfigMissing \/ m = MsgApiKeyMissing \/ m = MsgNoSetlistId).
Proof. apply configuration_missing_run. Qed.

Lemma missing_configuration_sends_nothing_witness :
  configuration_missing empty_password_environ (sample_arguments 200) = true
  /\ exists m,
       main (sample_runtime 200) empty_password_environ (sample_arguments 200)
         initial_world
       = (Raise (SystemExit 2), World 0 0 [] ([] ++ [m])).
Proof.
  split; [reflexivity|].
  destruct (missing_configuration_sends_nothing (sample_runtime 200)
              empty_password_environ (sample_arguments 200) initial_world
              eq_refl) as (m & Hm & _).
  by exists m.
Defined.

Lemma collect_ids_nonempty (rt : runtime) (env : environ)
    (args : arguments) (w w' : world) (ids : list string) :
  collect_matched_ids rt env args w = (Ok ids, w') ->
  ids <> [] /\ Forall (fun i : string => i <> "") ids.
Proof.
  intros Hrun.
  destruct (collect_matched_ids_ok rt env args w w' ids Hrun)
    as (doc & w1 & songs & _ & _ & _ & _ & _ & Hloop & Hne).
  split; [exact Hne|].
  apply match_titles_ok in Hloop. rewrite Hloop. apply title_outcomes_ids.
Qed.

(** X10. A run reaches the publishing step only with a matched list that is
    not empty and whose identifiers are all non-empty: the script never
    sends a playlist request without a song, nor one with an empty song
    id. *)
Theorem published_ids_are_nonempty (rt : runtime) (env : environ)
    (args : arguments) (w w' : world) (ids : list string) :
  collect_matched_ids rt env args w = (Ok ids, w') ->
  ids <> [] /\ Forall (fun i : string => i <> "") ids.
Proof. apply collect_ids_nonempty. Qed.

Lemma published_ids_are_nonempty_witness :
  collect_matched_ids (sample_runtime 200) sample_environ (sample_arguments 1)
    initial_world
  = (Ok ["id1"],
     World 8 2
       [MsgFetching "7bd6f1ac"; MsgFound 1;
        MsgMatched (JStr "A") (Some "Encore") "id1"] [])
  /\ ["id1"] <> [].
Proof.
  assert (H : collect_matched_ids (sample_runtime 200) sample_environ
                (sample_arguments 1) initial_world
              = (Ok ["id1"],
                 World 8 2
                   [MsgFetching "7bd6f1ac"; MsgFound 1;
                    MsgMatched (JStr "A") (Some "Encore") "id1"] []))
    by (vm_compute; reflexivity).
  split; [exact H|].
  exact (proj1 (published_ids_are_nonempty _ _ _ _ _ _ H)).
Defined.

(** * The setlist reference *)

Lemma rstrip_slash_slashes (k : nat) : rstrip_slash (slashes k) = "".
Proof. induction k as [|k IH]; simpl; [done|]. by rewrite IH. Qed.

Lemma rstrip_slash_segment (seg : string) (k : nat) :
  seg <> "" -> has_slash seg = false ->
  rstrip_slash (seg +:+ slashes k) = seg.
Proof.
  induction seg as [|c seg IH]; [done|]. intros _ Hseg. simpl in *.
  apply orb_false_elim in Hseg as [Hc Hseg].
  destruct seg as [|c' seg].
  - change ("" +:+ slashes k) with (slashes k).
    by rewrite rstrip_slash_slashes, Hc.
  - rewrite IH by done. done.
Qed.

Lemma rstrip_slash_prefix (pre t : string) :
  rstrip_slash t <> "" -> rstrip_slash (pre +:+ t) = pre +:+ rstrip_slash t.
Proof.
  intros Ht. induction pre as [|a pre IH]; simpl; [done|].
  rewrite IH. destruct pre; simpl; [|done].
  by destruct (rstrip_slash t).
Qed.

Lemma string_app_cons (a : ascii) (s t : string) :
  String a s +:+ t = String a (s +:+ t).
Proof. reflexivity. Qed.

Lemma string_app_empty_r (s : string) : s +:+ "" = s.
Proof.
  induction s as [|a s IH]; [done|]. by rewrite string_app_cons, IH.
Qed.

Lemma string_app_char (cur seg : string) (c : ascii) :
  (cur +:+ String c "") +:+ seg = cur +:+ String c seg.
Proof.
  induction cur as [|a cur IH]; [done|]. by rewrite !string_app_cons, IH.
Qed.

Lemma last_segment_from_plain (cur seg : string) :
  has_slash seg = false -> last_segment_from cur seg = cur +:+ seg.
Proof.
  revert cur. induction seg as [|c seg IH]; intros cur Hseg; simpl in *.
  - by rewrite string_app_empty_r.
  - apply orb_false_elim in Hseg as [Hc Hseg]. rewrite Hc, IH by done.
    apply string_app_char.
Qed.

Lemma last_segment_from_slash (cur pre seg : string) :
  has_slash seg = false ->
  last_segment_from cur (pre +:+ String "/" seg) = seg.
Proof.
  intros Hseg. revert cur.
  induction pre as [|a pre IH]; intros cur; simpl.
  - by rewrite last_segment_from_plain.
  - destruct (bool_decide (a = "/"%char)); apply IH.
Qed.

Lemma has_slash_app (s t : string) :
  has_slash (s +:+ t) = has_slash s || has_slash t.
Proof.
  induction s as [|a s IH]; simpl; [done|]. by rewrite IH, orb_assoc.
Qed.

Lemma last_segment_from_no_slash (cur s : string) :
  has_slash cur = false -> has_slash (last_segment_from cur s) = false.
Proof.
  revert cur. induction s as [|c s IH]; intros cur Hcur; simpl; [done|].
  destruct (bool_decide (c = "/"%char)) eqn:Hc; apply IH; [done|].
  rewrite has_slash_app, Hcur. simpl. by rewrite Hc.
Qed.

(** X11. The setlist id given with [--setlist-id] wins over any URL. Without
    it, the id is taken from [--setlist-url]: it never contains a slash, and
    for a URL that ends in a slash, a non-empty segment without slashes and
    any number of trailing slashes, it is exactly that segment; the same
    holds for a URL that is such a segment followed by trailing slashes. A
    URL made of slashes only gives the empty id, which [main] rejects. *)
Theorem setlist_reference_resolution (args : arguments) :
  (falsy (setlist_id args) = false ->
   resolve_setlist_id args = setlist_id args)
  /\ (falsy (setlist_id args) = true ->
      falsy (setlist_url args) = false ->
      exists seg, resolve_setlist_id args = Some seg
                  /\ has_slash seg = false)
  /\ (forall pre seg k,
        falsy (setlist_id args) = true ->
        seg <> "" -> has_slash seg = false ->
        setlist_url args = Some (pre +:+ String "/" (seg +:+ slashes k)) ->
        resolve_setlist_id args = Some seg)
  /\ (forall seg k,
        falsy (setlist_id args) = true ->
        seg <> "" -> has_slash seg = false ->
        setlist_url args = Some (seg +:+ slashes k) ->
        resolve_setlist_id args = Some seg)
  /\ (forall k,
        falsy (setlist_id args) = true ->
        setlist_url args = Some (slashes (S k)) ->
        resolve_setlist_id args = Some ""
        /\ falsy (resolve_setlist_id args) = true).
Proof.
  unfold resolve_setlist_id. split; [|split; [|split; [|split]]].
  - by intros ->.
  - intros -> ->. simpl. eexists. split; [reflexivity|].
    by apply last_segment_from_no_slash.
  - intros pre seg k -> Hne Hseg Hurl. rewrite Hurl. simpl.
    assert (Hne' : seg +:+ slashes k <> "") by (by destruct seg).
    rewrite bool_decide_eq_false_2 by (by destruct pre). simpl. f_equal.
    assert (Hstrip : rstrip_slash (String "/" (seg +:+ slashes k))
                     = String "/" seg).
    { simpl. rewrite rstrip_slash_segment by done. by destruct seg. }
    rewrite rstrip_slash_prefix by (by rewrite Hstrip).
    rewrite Hstrip. by apply last_segment_from_slash.
  - intros seg k -> Hne Hseg Hurl. rewrite Hurl. simpl.
    rewrite bool_decide_eq_false_2 by (by destruct seg). simpl. f_equal.
    rewrite rstrip_slash_segment by done.
    unfold last_segment. by rewrite last_segment_from_plain.
  - intros k -> Hurl. rewrite Hurl. simpl.
    rewrite rstrip_slash_slashes. simpl. done.
Qed.

Lemma setlist_reference_resolution_witness :
  falsy (setlist_id (Arguments_ None
           (Some "https://www.setlist.fm/setlist/band/7bd6f1ac/") "P" None 200))
  = true
  /\ resolve_setlist_id (Arguments_ None
       (Some "https://www.setlist.fm/setlist/band/7bd6f1ac/") "P" None 200)
     = Some "7bd6f1ac".
Proof.
  split; [reflexivity|].
  refine (proj1 (proj2 (proj2 (setlist_reference_resolution
            (Arguments_ None
               (Some "https://www.setlist.fm/setlist/band/7bd6f1ac/") "P"
               None 200))))
            "https://www.setlist.fm/setlist/band" "7bd6f1ac" 1%nat
            eq_refl _ eq_refl eq_refl).
  intros H. discriminate H.
Defined.

(** * The end of a run *)

Section Ending.
Variable rt : runtime.
Variable env : environ.
Variable args : arguments.





End Ending.


(** X13. A run that returns normally ended with the playlist request: a POST
    carrying the matched identifiers in order, answered with a status outside
    400-599. After the matching it drew one more salt, sent that one request,
    and printed the creation notice with the number of songs, the success
    message and the body of the response, in this order. *)
Theorem successful_run_publishes (rt : runtime) (env : environ)
    (args : arguments) (w w' : world) :
  main rt env args w = (Ok tt, w') ->
  exists ids w1 rq r,
    collect_matched_ids rt env args w = (Ok ids, w1)
    /\ ids <> []
    /\ req_method rq = "POST"
    /\ req_params rq !! "name" = Some (JStr (playlist_name args))
    /\ (forall i, req_params rq !! ("songId[" +:+ pretty i +:+ "]")
                  = JStr <$> ids !! i)
    /\ net rt (net_calls w1) rq = Replied r
    /\ ~ (400 <= status_code r < 600)
    /\ w' = World (rng_pos w1 + 8) (S (net_calls w1))
              (stdout w1 ++ [MsgCreating (playlist_name args) (length ids);
                             MsgCreated; MsgServerResponse (text r)])
              (stderr w1).
Proof.
  rewrite main_run.
  destruct (collect_matched_ids rt env args w) as [[ids|e] w1] eqn:Hcollect;
    [|discriminate].
  rewrite publish_run. cbv zeta.
  destruct (stdout_accepts rt (MsgCreating _ _)); [|discriminate].
  destruct (create_playlist_sends rt env (val (NAV_BASE_URL env))
              (val (NAV_USERNAME env)) (val (NAV_PASSWORD env))
              (playlist_name args) ids
              (logged (MsgCreating (playlist_name args) (length ids)) w1))
    as (rq & Hmeth & _ & _ & _ & Hids & Hname & _ & _ & _ & _ & _ & _ & ->).
  cbv zeta. simpl.
  destruct (net rt (net_calls w1) rq) as [r|msg] eqn:Hnet; [|discriminate].
  destruct ((400 <=? status_code r) && (status_code r <? 600)) eqn:Hst;
    [discriminate|].
  destruct (stdout_accepts rt MsgCreated); [|discriminate].
  destruct (stdout_accepts rt (MsgServerResponse _)); [|discriminate].
  intros [= <-]. exists ids, w1, rq, r.
  split; [done|].
  split; [apply (collect_ids_nonempty rt env args w w1 ids Hcollect)|].
  split; [done|]. split; [done|]. split; [done|]. split; [done|].
  split.
  { intros Herr. apply error_status_raises in Herr. congruence. }
  unfold logged. simpl. by rewrite <- !app_assoc.
Qed.

Lemma successful_run_publishes_witness :
  main (sample_runtime 200) sample_environ (sample_arguments 1) initial_world
  = (Ok tt,
     World 16 3
       [MsgFetching "7bd6f1ac"; MsgFound 1;
        MsgMatched (JStr "A") (Some "Encore") "id1";
        MsgCreating "Band - Tour" 1; MsgCreated; MsgServerResponse ""] [])
  /\ exists ids w1,
       collect_matched_ids (sample_runtime 200) sample_environ
         (sample_arguments 1) initial_world = (Ok ids, w1)
       /\ ids <> [].
Proof.
  assert (H : main (sample_runtime 200) sample_environ (sample_arguments 1)
                initial_world
              = (Ok tt,
                 World 16 3
                   [MsgFetching "7bd6f1ac"; MsgFound 1;
                    MsgMatched (JStr "A") (Some "Encore") "id1";
                    MsgCreating "Band - Tour" 1; MsgCreated;
                    MsgServerResponse ""] []))
    by (vm_compute; reflexivity).
  split; [exact H|].
  destruct (successful_run_publishes _ _ _ _ _ H)
    as (ids & w1 & rq & r & H1 & H2 & _).
  exists ids, w1. split; [exact H1 | exact H2].
Defined.
